(** * Mastermind: a shallow embedding of [src/Mastermind/mastermind.jsx]

    The development follows the source file: the values that fill a code
    slot, the random source, [randomCode], [scoreGuess] and the state
    machine formed by the event handlers of [MastermindApp].

    Conventions of the embedding.
    - JavaScript numbers that the program uses as counters, lengths and
      indices are integers of [Z]; the number inputs of the settings panel
      are taken to deliver integers.
    - Arrays are lists.  The engine's limit on array lengths and memory
      exhaustion are outside the model.
    - [Math.random()] is a draw [k] with [0 <= k < 2^53], read as the real
      number [k / 2^53]; products with it are taken exactly. *)

From Stdlib Require Import ZArith String List Bool Lia Permutation.
Import ListNotations.
Local Open Scope Z_scope.

(** ** Values held by code slots *)

(** A slot of a code or of the guess row holds a palette key (a string),
    [null] (an unset slot of the guess row) or [undefined] (a read outside
    an array). *)
Inductive value : Type :=
| Undefined
| Null
| Str (s : string).

Definition value_eq_dec (a b : value) : {a = b} + {a <> b}.
Proof. decide equality. apply string_dec. Defined.

(** [a === b] on these values. *)
Definition strict_eq (a b : value) : bool :=
  match a, b with
  | Undefined, Undefined => true
  | Null, Null => true
  | Str s, Str t => String.eqb s t
  | _, _ => false
  end.

(** [!!c] *)
Definition truthy (c : value) : bool :=
  match c with
  | Str s => negb (String.eqb s EmptyString)
  | _ => false
  end.

(** [a[i]]: a read outside the array gives [undefined]. *)
Definition index (a : list value) (i : nat) : value := nth i a Undefined.

(** ** The scorer *)

Module Scorer.

Record feedback : Type := { blacks : Z; whites : Z }.

(** [secret.reduce((acc, s, i) => acc + (s === guess[i] ? 1 : 0), 0)],
    with the running index [i] and accumulator [acc]. *)
Fixpoint reduce_blacks (secret guess : list value) (i : nat) (acc : Z) : Z :=
  match secret with
  | [] => acc
  | s :: rest =>
      reduce_blacks rest guess (S i)
        (acc + (if strict_eq s (index guess i) then 1 else 0))
  end.

(** A [Map]: entries in insertion order, one entry per key. *)
Definition JsMap : Type := list (value * Z).

Fixpoint map_get (m : JsMap) (k : value) : option Z :=
  match m with
  | [] => None
  | (k', v) :: rest => if strict_eq k' k then Some v else map_get rest k
  end.

Fixpoint map_set (m : JsMap) (k : value) (v : Z) : JsMap :=
  match m with
  | [] => [(k, v)]
  | (k', v') :: rest =>
      if strict_eq k' k then (k', v) :: rest else (k', v') :: map_set rest k v
  end.

(** [x || 0] for the result of [Map.get]. *)
Definition or0 (o : option Z) : Z :=
  match o with
  | Some n => n
  | None => 0
  end.

(** [for (const s of code) counts.set(s, (counts.get(s) || 0) + 1)] *)
Definition tally (counts : JsMap) (code : list value) : JsMap :=
  fold_left (fun m s => map_set m s (or0 (map_get m s) + 1)) code counts.

(** The loop over [secCounts.entries()]. *)
Definition overlap_loop (secCounts gueCounts : JsMap) : Z :=
  fold_left
    (fun overlap (e : value * Z) =>
       let (k, sc) := e in
       let gc := or0 (map_get gueCounts k) in
       overlap + Z.min sc gc)
    secCounts 0.

Definition scoreGuess (secret guess : list value) : feedback :=
  let blacks := reduce_blacks secret guess 0 0 in
  let secCounts := tally [] secret in
  let gueCounts := tally [] guess in
  let overlap := overlap_loop secCounts gueCounts in
  let whites := Z.max 0 (overlap - blacks) in
  {| blacks := blacks; whites := whites |}.

(** *** The scoring rule in the words of the specification *)

(** Number of indices [i] with [secret[i] == guess[i]]. *)
Definition exact_spec (secret guess : list value) : Z :=
  Z.of_nat
    (length
       (filter (fun i => strict_eq (index secret i) (index guess i))
          (seq 0 (length secret)))).

(** Number of positions of [code] that hold colour [c]. *)
Definition count (code : list value) (c : value) : Z :=
  Z.of_nat (count_occ value_eq_dec code c).

Definition sumZ (f : value -> Z) (l : list value) : Z :=
  fold_right (fun c acc => f c + acc) 0 l.

(** The colours that appear in either code, each listed once. *)
Definition colours (secret guess : list value) : list value :=
  nodup value_eq_dec (secret ++ guess).

Definition overlap_spec (secret guess : list value) : Z :=
  sumZ (fun c => Z.min (count secret c) (count guess c)) (colours secret guess).

(** *** Vocabulary for the proofs *)

(** Positions at which two codes, read side by side, hold the same colour. *)
Fixpoint agree (s g : list value) : Z :=
  match s, g with
  | x :: s', y :: g' => (if strict_eq x y then 1 else 0) + agree s' g'
  | _, _ => 0
  end.

(** Those of them at which the common colour is [c]. *)
Fixpoint agree_on (c : value) (s g : list value) : Z :=
  match s, g with
  | x :: s', y :: g' =>
      (if strict_eq x y && strict_eq x c then 1 else 0) + agree_on c s' g'
  | _, _ => 0
  end.

End Scorer.

(** ** Completions and the random source *)

Module Generator.

(** The two error kinds of the specification.  The source file contains no
    [throw] and calls nothing that throws on the values it handles, so the
    functions below only ever build [Normal] completions; the type is what
    lets a statement say so. *)
Inductive error : Type :=
| InvalidInput
| InvalidConfiguration.

(** How a call ends: with a value, or abruptly with an error. *)
Inductive completion (A : Type) : Type :=
| Normal (a : A)
| Throw (e : error).
Arguments Normal {A} a.
Arguments Throw {A} e.

(** The state of [Math.random]: the draws still to come, [draws pos] being
    the next one. *)
Record rng : Type := { draws : nat -> Z; pos : nat }.

(** A computation that may draw random numbers and may end abruptly. *)
Definition M (A : Type) : Type := rng -> completion (A * rng).

Definition ret {A : Type} (a : A) : M A := fun g => Normal (a, g).

Definition bind {A B : Type} (c : M A) (k : A -> M B) : M B :=
  fun g =>
    match c g with
    | Normal (a, g') => k a g'
    | Throw e => Throw e
    end.

Notation "x <- c ;; k" := (bind c (fun x => k))
  (at level 61, c at next level, right associativity).

(** [Math.random()], as the numerator [k] of [k / 2^53]. *)
Definition Math_random : M Z :=
  fun g => Normal (draws g (pos g) mod 2 ^ 53,
                   {| draws := draws g; pos := S (pos g) |}).

(** [Math.floor(Math.random() * n)] *)
Definition random_below (n : Z) : M Z :=
  k <- Math_random ;; ret (k * n / 2 ^ 53).

(** [Array.from({ length: n }, f)]: [f] is called once per slot, in order. *)
Fixpoint array_from (n : nat) (f : M value) : M (list value) :=
  match n with
  | O => ret []
  | S n' => x <- f ;; xs <- array_from n' f ;; ret (x :: xs)
  end.

(** [a.slice(0, e)]: a negative [e] counts from the end of the array. *)
Definition slice0 (a : list value) (e : Z) : list value :=
  let n := Z.of_nat (length a) in
  let fin := if e <? 0 then Z.max (n + e) 0 else Z.min e n in
  firstn (Z.to_nat fin) a.

(** [() => Math.random() - 0.5], scaled by [2^53]: the sign is what the
    sort looks at. *)
Definition random_order (_ _ : value) : M Z :=
  k <- Math_random ;; ret (k - 2 ^ 52).

(** [returns c P]: whatever the random source, [c] ends normally, with a
    value that satisfies [P]. *)
Definition returns {A : Type} (c : M A) (P : A -> Prop) : Prop :=
  forall g, exists a g', c g = Normal (a, g') /\ P a.

(** A comparator that always returns. *)
Definition total_cmp (cmp : value -> value -> M Z) : Prop :=
  forall a b, returns (cmp a b) (fun _ => True).

(** [Array.prototype.sort] belongs to the engine, not to the source file.
    It is a parameter of the embedding; what is asked of it is that, with a
    comparator that returns, it returns a rearrangement of the array. *)
Definition sort_permutes
    (array_sort : (value -> value -> M Z) -> list value -> M (list value)) : Prop :=
  forall cmp l, total_cmp cmp ->
    returns (array_sort cmp l) (fun l' => Permutation l l').

Section WithEngine.

Variable array_sort : (value -> value -> M Z) -> list value -> M (list value).

(** [randomCode(keys, length, allowDuplicates)].  The call
    [randomCode(keys, length, true)] of the fallback is the first branch
    again, so both are written as [with_replacement]. *)
Definition randomCode (keys : list value) (length : Z) (allowDuplicates : bool)
  : M (list value) :=
  let with_replacement :=
    array_from (Z.to_nat length)
      (i <- random_below (Z.of_nat (List.length keys)) ;;
       ret (index keys (Z.to_nat i))) in
  if allowDuplicates then with_replacement
  else
    let arr := keys in
    if length >? Z.of_nat (List.length arr) then with_replacement
    else
      sorted <- array_sort random_order arr ;;
      ret (slice0 sorted length).

End WithEngine.

(** One engine sort, for running the model: insertion from the right. *)
Fixpoint insert_by (cmp : value -> value -> M Z) (x : value) (l : list value)
  : M (list value) :=
  match l with
  | [] => ret [x]
  | y :: t =>
      c <- cmp x y ;;
      if c <=? 0 then ret (x :: y :: t)
      else t' <- insert_by cmp x t ;; ret (y :: t')
  end.

Fixpoint insertion_sort (cmp : value -> value -> M Z) (l : list value)
  : M (list value) :=
  match l with
  | [] => ret []
  | x :: t => s <- insertion_sort cmp t ;; insert_by cmp x s
  end.

End Generator.

(** ** The session: state and event handlers of [MastermindApp] *)

Module App.

Import Scorer Generator.

Record color : Type := { k : string; label : string; hex : string }.

Definition defaultPalette : list color :=
  [ {| k := "r"; label := "Red"; hex := "#ef4444" |};
    {| k := "b"; label := "Blue"; hex := "#3b82f6" |};
    {| k := "g"; label := "Green"; hex := "#22c55e" |};
    {| k := "y"; label := "Yellow"; hex := "#eab308" |};
    {| k := "o"; label := "Orange"; hex := "#f97316" |};
    {| k := "p"; label := "Purple"; hex := "#a855f7" |} ]%string.

(** An entry of [history]. *)
Record Attempt : Type := { guess : list value; feedback : Scorer.feedback }.

(** The [useState] cells of the component. *)
Record State : Type := {
  palette : list color;
  length : Z;
  attempts : Z;
  allowDup : bool;
  secret : list value;
  current : list value;
  cursor : Z;
  history : list Attempt;
  gameOver : bool;
  reveal : bool
}.

Definition setPalette (p : list color) (st : State) : State :=
  {| palette := p; length := length st; attempts := attempts st;
     allowDup := allowDup st; secret := secret st; current := current st;
     cursor := cursor st; history := history st; gameOver := gameOver st;
     reveal := reveal st |}.

Definition setLength (v : Z) (st : State) : State :=
  {| palette := palette st; length := v; attempts := attempts st;
     allowDup := allowDup st; secret := secret st; current := current st;
     cursor := cursor st; history := history st; gameOver := gameOver st;
     reveal := reveal st |}.

Definition setAttempts (v : Z) (st : State) : State :=
  {| palette := palette st; length := length st; attempts := v;
     allowDup := allowDup st; secret := secret st; current := current st;
     cursor := cursor st; history := history st; gameOver := gameOver st;
     reveal := reveal st |}.

Definition setAllowDup (b : bool) (st : State) : State :=
  {| palette := palette st; length := length st; attempts := attempts st;
     allowDup := b; secret := secret st; current := current st;
     cursor := cursor st; history := history st; gameOver := gameOver st;
     reveal := reveal st |}.

Definition setSecret (c : list value) (st : State) : State :=
  {| palette := palette st; length := length st; attempts := attempts st;
     allowDup := allowDup st; secret := c; current := current st;
     cursor := cursor st; history := history st; gameOver := gameOver st;
     reveal := reveal st |}.

Definition setCurrent (c : list value) (st : State) : State :=
  {| palette := palette st; length := length st; attempts := attempts st;
     allowDup := allowDup st; secret := secret st; current := c;
     cursor := cursor st; history := history st; gameOver := gameOver st;
     reveal := reveal st |}.

Definition setCursor (i : Z) (st : State) : State :=
  {| palette := palette st; length := length st; attempts := attempts st;
     allowDup := allowDup st; secret := secret st; current := current st;
     cursor := i; history := history st; gameOver := gameOver st;
     reveal := reveal st |}.

Definition setHistory (h : list Attempt) (st : State) : State :=
  {| palette := palette st; length := length st; attempts := attempts st;
     allowDup := allowDup st; secret := secret st; current := current st;
     cursor := cursor st; history := h; gameOver := gameOver st;
     reveal := reveal st |}.

Definition setGameOver (b : bool) (st : State) : State :=
  {| palette := palette st; length := length st; attempts := attempts st;
     allowDup := allowDup st; secret := secret st; current := current st;
     cursor := cursor st; history := history st; gameOver := b;
     reveal := reveal st |}.

Definition setReveal (f : bool -> bool) (st : State) : State :=
  {| palette := palette st; length := length st; attempts := attempts st;
     allowDup := allowDup st; secret := secret st; current := current st;
     cursor := cursor st; history := history st; gameOver := gameOver st;
     reveal := f (reveal st) |}.

(** [palette.map((p) => p.k)] *)
Definition keys (st : State) : list value :=
  map (fun p => Str (k p)) (palette st).

(** [Array.from({ length }, () => null)] *)
Definition empty_row (n : Z) : list value := repeat Null (Z.to_nat n).

(** [current.every((c) => !!c) && !gameOver] *)
Definition canSubmit (st : State) : bool :=
  forallb truthy (current st) && negb (gameOver st).

Definition handleSetSlot (i : Z) (st : State) : State := setCursor i st.

(** [a[i] = v] on a copy of [a].  A write past the end lengthens the
    array; the slots it skips read as [undefined]. *)
Fixpoint array_set_nat (a : list value) (i : nat) (v : value) : list value :=
  match i, a with
  | O, [] => [v]
  | O, _ :: t => v :: t
  | S i', [] => Undefined :: array_set_nat [] i' v
  | S i', x :: t => x :: array_set_nat t i' v
  end.

Definition array_set (a : list value) (i : Z) (v : value) : list value :=
  if i <? 0 then a else array_set_nat a (Z.to_nat i) v.

(** [handlePick(k)].  [%] is the remainder that takes the sign of the
    dividend; [length] is never [0] here, the setting being kept within
    [2..10]. *)
Definition handlePick (key : value) (st : State) : State :=
  if gameOver st then st
  else
    let next := array_set (current st) (cursor st) key in
    let st1 := setCurrent next st in
    let nextIdx := Z.rem (cursor st + 1) (length st) in
    setCursor nextIdx st1.

(** [submit()] *)
Definition submit (st : State) : completion State :=
  if negb (canSubmit st) then Normal st
  else
    let g := current st in
    let feedback := scoreGuess (secret st) g in
    let newHistory := history st ++ [{| guess := g; feedback := feedback |}] in
    let st1 := setHistory newHistory st in
    if blacks feedback =? length st then Normal (setGameOver true st1)
    else if Z.of_nat (List.length newHistory) >=? attempts st
    then Normal (setGameOver true st1)
    else Normal (setCursor 0 (setCurrent (empty_row (length st)) st1)).

(** [addCyanMagenta()] *)
Definition addCyanMagenta (st : State) : State :=
  let extra :=
    [ {| k := "c"; label := "Cyan"; hex := "#06b6d4" |};
      {| k := "m"; label := "Magenta"; hex := "#db2777" |} ]%string in
  let existing := map k (palette st) in
  let merged :=
    palette st
    ++ filter (fun e => negb (existsb (String.eqb (k e)) existing)) extra in
  setPalette merged st.

(** [history.at(-1)] *)
Definition at_last (h : list Attempt) : option Attempt :=
  last (map Some h) None.

(** [history.at(-1)?.feedback.blacks === length] *)
Definition cracked (st : State) : bool :=
  match at_last (history st) with
  | Some a => blacks (feedback a) =? length st
  | None => false
  end.

(** The three cases told apart by [statusText] and by the closing banner. *)
Inductive status : Type := InProgress | Won | Lost.

Definition status_of (st : State) : status :=
  if gameOver st then (if cracked st then Won else Lost) else InProgress.

(** What the reveal area renders: the secret when [reveal] is on. *)
Definition shown_secret (st : State) : option (list value) :=
  if reveal st then Some (secret st) else None.

(** The reveal button: [setReveal((r) => !r)]. *)
Definition toggleReveal (st : State) : State := setReveal negb st.

(** The [onChange] handlers of the two number inputs. *)
Definition changeLength (input : Z) (st : State) : State :=
  let v := Z.min 10 (Z.max 2 input) in setLength v st.

Definition changeAttempts (input : Z) (st : State) : State :=
  let v := Z.min 20 (Z.max 1 input) in setAttempts v st.

Definition lift {A : Type} (c : completion A) : M A :=
  fun g =>
    match c with
    | Normal a => Normal (a, g)
    | Throw e => Throw e
    end.

(** What the user can do to the rendered page. *)
Inductive event : Type :=
| ChangeLength (input : Z)
| ChangeAttempts (input : Z)
| ChangeAllowDup (checked : bool)
| ClickNewGame
| ClickAddCyanMagenta
| ClickDefaultPalette
| ClickPalette (j : nat)
| ClickSlot (i : nat)
| ClickGuess
| ClickReveal.

Section WithEngine.

Variable array_sort : (value -> value -> M Z) -> list value -> M (list value).

(** The state of the first render. *)
Definition init : M State :=
  let palette := defaultPalette in
  let length := 4 in
  let attempts := 10 in
  let allowDup := true in
  let keys := map (fun p => Str (k p)) palette in
  secret <- randomCode array_sort keys length allowDup ;;
  ret {| palette := palette; length := length; attempts := attempts;
         allowDup := allowDup; secret := secret;
         current := empty_row length; cursor := 0; history := [];
         gameOver := false; reveal := false |}.

(** [resetGame()] *)
Definition resetGame (st : State) : M State :=
  newSecret <- randomCode array_sort (keys st) (length st) (allowDup st) ;;
  ret (setReveal (fun _ => false)
         (setGameOver false
            (setHistory []
               (setCursor 0
                  (setCurrent (empty_row (length st))
                     (setSecret newSecret st)))))).

(** One event on the rendered page.  The guess row, with its slot buttons
    and its Guess button, is rendered only while [gameOver] is off; a slot
    button exists for every index of [current], a palette button for every
    entry of [palette]; the Guess button is disabled unless [canSubmit]. *)
Definition step (st : State) (e : event) : M State :=
  match e with
  | ChangeLength input => ret (changeLength input st)
  | ChangeAttempts input => ret (changeAttempts input st)
  | ChangeAllowDup checked => ret (setAllowDup checked st)
  | ClickNewGame => resetGame st
  | ClickAddCyanMagenta => ret (addCyanMagenta st)
  | ClickDefaultPalette => ret (setPalette defaultPalette st)
  | ClickPalette j =>
      match nth_error (palette st) j with
      | Some c => ret (handlePick (Str (k c)) st)
      | None => ret st
      end
  | ClickSlot i =>
      if negb (gameOver st) && (i <? List.length (current st))%nat
      then ret (handleSetSlot (Z.of_nat i) st)
      else ret st
  | ClickGuess =>
      if canSubmit st then lift (submit st) else ret st
  | ClickReveal => ret (toggleReveal st)
  end.

Fixpoint run (st : State) (es : list event) : M State :=
  match es with
  | [] => ret st
  | e :: rest => st' <- step st e ;; run st' rest
  end.

(** A session: the first render followed by events. *)
Definition session (es : list event) : M State :=
  st <- init ;; run st es.

End WithEngine.

End App.

(** ** Colours and a random source for running the model *)

Definition red : value := Str "r".
Definition blue : value := Str "b".
Definition green : value := Str "g".
Definition yellow : value := Str "y".

(** The random source whose every draw is [0]. *)
Definition zeros : Generator.rng :=
  {| Generator.draws := fun _ => 0; Generator.pos := O |}.

(** A random source whose draws move about the unit interval. *)
Definition mixed : Generator.rng :=
  {| Generator.draws := fun n => Z.of_nat n * 3141592653589793 + 1234567890123;
     Generator.pos := O |}.

(** The keys of the default palette. *)
Definition default_keys : list value :=
  map (fun p => Str (App.k p)) App.defaultPalette.

(** A state in the middle of a game, with a complete guess row. *)
Definition demo_state : App.State :=
  {| App.palette := App.defaultPalette; App.length := 4; App.attempts := 10;
     App.allowDup := true; App.secret := [red; red; blue; green];
     App.current := [red; blue; blue; yellow]; App.cursor := 0;
     App.history := []; App.gameOver := false; App.reveal := false |}.

(** What the handlers keep true of the settings and of the guess row: the
    length stays within [2..10] and the budget within [1..20]; the cursor
    points into the row or just past its end, so that no write skips a
    slot; and no slot of the row holds [undefined]. *)
Definition row_invariant (st : App.State) : Prop :=
  2 <= App.length st <= 10
  /\ 1 <= App.attempts st <= 20
  /\ 0 <= App.cursor st <= Z.of_nat (List.length (App.current st))
  /\ Forall (fun v => v <> Undefined) (App.current st).

(** ** Further vocabulary *)

(** The colour of a peg of the history or of the revealed secret:
    [palette.find((p) => p.k === g)?.hex || "#ddd"]. *)
Definition peg_hex (palette : list App.color) (key : value) : string :=
  match find (fun p => strict_eq (Str (App.k p)) key) palette with
  | Some p => if String.eqb (App.hex p) EmptyString then "#ddd" else App.hex p
  | None => "#ddd"
  end.

(** The palette after the two extra colours have been added to the default
    one. *)
Definition extendedPalette : list App.color :=
  App.defaultPalette
  ++ [ {| App.k := "c"; App.label := "Cyan"; App.hex := "#06b6d4" |};
       {| App.k := "m"; App.label := "Magenta"; App.hex := "#db2777" |} ]%string.

(** What a session keeps true of its history: every attempt was a complete
    row and carries the feedback of that row against the secret of the
    state; there are at most 20 attempts, fewer while the game is on; and a
    game that is over has at least one attempt. *)
Definition history_invariant (st : App.State) : Prop :=
  Forall
    (fun a =>
       App.feedback a = Scorer.scoreGuess (App.secret st) (App.guess a)
       /\ forallb truthy (App.guess a) = true)
    (App.history st)
  /\ Z.of_nat (List.length (App.history st)) <= 20
  /\ (App.gameOver st = false -> Z.of_nat (List.length (App.history st)) < 20)
  /\ (App.gameOver st = true -> App.history st <> []).

(** The palettes a session can show. *)
Definition palette_invariant (st : App.State) : Prop :=
  App.palette st = App.defaultPalette \/ App.palette st = extendedPalette.

(** The picks of a whole row, one [handlePick] per key. *)
Definition pick_all (ks : list value) (st : App.State) : App.State :=
  fold_left (fun s key => App.handlePick key s) ks st.

(** * Facts *)

Import Scorer Generator.

(** ** Strict equality *)

Lemma strict_eq_spec a b : reflect (a = b) (strict_eq a b).
Proof.
  destruct a as [| |s], b as [| |t]; simpl; try (constructor; congruence).
  destruct (String.eqb_spec s t); constructor; congruence.
Qed.

Lemma strict_eq_refl a : strict_eq a a = true.
Proof. destruct (strict_eq_spec a a); congruence. Qed.

Lemma strict_eq_sym a b : strict_eq a b = strict_eq b a.
Proof.
  destruct (strict_eq_spec a b), (strict_eq_spec b a); congruence.
Qed.

Lemma strict_eq_true a b : strict_eq a b = true <-> a = b.
Proof. destruct (strict_eq_spec a b); split; congruence. Qed.

Lemma strict_eq_false a b : strict_eq a b = false <-> a <> b.
Proof. destruct (strict_eq_spec a b); split; congruence. Qed.

Ltac case_strict a b :=
  let E := fresh "E" in
  destruct (strict_eq_spec a b) as [E|E]; [try subst|].

(** ** Sums over lists of colours *)

Lemma sumZ_ext_in f g l :
  (forall c, In c l -> f c = g c) -> sumZ f l = sumZ g l.
Proof.
  induction l as [|x l IH]; simpl; intros H; [reflexivity|].
  rewrite (H x) by (left; reflexivity).
  rewrite IH by (intros; apply H; right; assumption). reflexivity.
Qed.

Lemma sumZ_add f g l :
  sumZ (fun c => f c + g c) l = sumZ f l + sumZ g l.
Proof. induction l as [|x l IH]; simpl; lia. Qed.

Lemma sumZ_le f g l :
  (forall c, In c l -> f c <= g c) -> sumZ f l <= sumZ g l.
Proof.
  induction l as [|x l IH]; simpl; intros H; [lia|].
  specialize (H x (or_introl eq_refl)) as Hx.
  assert (sumZ f l <= sumZ g l) by (apply IH; intros; apply H; right; assumption).
  lia.
Qed.

Lemma sumZ_perm f l l' : Permutation l l' -> sumZ f l = sumZ f l'.
Proof. induction 1; simpl; lia. Qed.

Lemma sumZ_filter_nonzero f l :
  sumZ f (filter (fun c => negb (f c =? 0)) l) = sumZ f l.
Proof.
  induction l as [|x l IH]; simpl; [reflexivity|].
  destruct (Z.eqb_spec (f x) 0) as [E|E]; simpl; lia.
Qed.

(** Two duplicate-free lists that hold the same colours of non-zero weight
    have the same sum. *)
Lemma sumZ_support f l l' :
  NoDup l -> NoDup l' ->
  (forall c, f c <> 0 -> (In c l <-> In c l')) ->
  sumZ f l = sumZ f l'.
Proof.
  intros Hl Hl' H.
  rewrite <- (sumZ_filter_nonzero f l), <- (sumZ_filter_nonzero f l').
  apply sumZ_perm, NoDup_Permutation; try (apply NoDup_filter; assumption).
  intros c. rewrite !filter_In.
  split; intros [Hin Hnz]; (split; [|assumption]);
    apply H; try assumption;
    apply negb_true_iff, Z.eqb_neq in Hnz; assumption.
Qed.

(** The weight [x] placed on one colour [s] of a duplicate-free list. *)
Lemma sumZ_indicator s x l :
  NoDup l -> In s l ->
  sumZ (fun c => if strict_eq s c then x else 0) l = x.
Proof.
  induction 1 as [|y l Hy Hnd IH]; simpl; [contradiction|].
  intros [->|Hin].
  - rewrite strict_eq_refl.
    rewrite (sumZ_ext_in _ (fun _ => 0)).
    + clear. induction l; simpl; lia.
    + intros c Hc. case_strict s c; [contradiction|reflexivity].
  - case_strict s y; [contradiction|]. rewrite IH by assumption. lia.
Qed.

(** ** Counting colours *)

Lemma count_nil c : count [] c = 0.
Proof. reflexivity. Qed.

Lemma count_cons x l c :
  count (x :: l) c = (if strict_eq x c then 1 else 0) + count l c.
Proof.
  unfold count. simpl.
  destruct (value_eq_dec x c) as [E|E]; case_strict x c; try contradiction; lia.
Qed.

Lemma count_nonneg l c : 0 <= count l c.
Proof. unfold count. lia. Qed.

Lemma count_pos_in l c : count l c <> 0 <-> In c l.
Proof.
  unfold count. rewrite (count_occ_In value_eq_dec). lia.
Qed.

Lemma sumZ_count l D :
  NoDup D -> incl l D -> sumZ (count l) D = Z.of_nat (List.length l).
Proof.
  intros HD. induction l as [|x l IH]; intros Hin.
  - clear. induction D as [|d D IHD]; [reflexivity|].
    simpl in *. rewrite IHD. reflexivity.
  - rewrite (sumZ_ext_in _ (fun c => (if strict_eq x c then 1 else 0) + count l c))
      by (intros; apply count_cons).
    rewrite sumZ_add, sumZ_indicator, IH; simpl List.length.
    + lia.
    + intros c Hc. apply Hin. right. assumption.
    + assumption.
    + apply Hin. left. reflexivity.
Qed.

(** ** Positions that agree *)

Lemma agree_nonneg s g : 0 <= agree s g.
Proof.
  revert g. induction s as [|x s IH]; intros [|y g]; simpl; try lia.
  specialize (IH g). destruct (strict_eq x y); lia.
Qed.

Lemma agree_le_length s g : agree s g <= Z.of_nat (List.length s).
Proof.
  revert g. induction s as [|x s IH]; intros [|y g]; simpl List.length;
    simpl agree; try lia.
  specialize (IH g). destruct (strict_eq x y); lia.
Qed.

Lemma agree_sym s g : agree s g = agree g s.
Proof.
  revert g. induction s as [|x s IH]; intros [|y g]; simpl; try reflexivity.
  rewrite IH, strict_eq_sym. reflexivity.
Qed.

Lemma agree_refl s : agree s s = Z.of_nat (List.length s).
Proof.
  induction s as [|x s IH]; simpl List.length; simpl agree; [reflexivity|].
  rewrite strict_eq_refl, IH. lia.
Qed.

Lemma agree_full s g :
  List.length s = List.length g ->
  agree s g = Z.of_nat (List.length s) -> s = g.
Proof.
  revert g. induction s as [|x s IH]; intros [|y g] Hlen;
    simpl in Hlen; try discriminate; [reflexivity|].
  simpl List.length. simpl agree. intros H.
  pose proof (agree_le_length s g) as Hle.
  case_strict x y; [|lia].
  f_equal. apply IH; [congruence|lia].
Qed.

Lemma agree_on_nonneg c s g : 0 <= agree_on c s g.
Proof.
  revert g. induction s as [|x s IH]; intros [|y g]; simpl; try lia.
  specialize (IH g). destruct (strict_eq x y && strict_eq x c); lia.
Qed.

Lemma agree_on_le_count_l c s g : agree_on c s g <= count s c.
Proof.
  revert g. induction s as [|x s IH]; intros [|y g]; simpl agree_on;
    try apply count_nonneg.
  rewrite count_cons. specialize (IH g).
  destruct (strict_eq x y), (strict_eq x c); cbn [andb]; lia.
Qed.

Lemma agree_on_le_count_r c s g : agree_on c s g <= count g c.
Proof.
  revert g. induction s as [|x s IH]; intros [|y g]; simpl agree_on;
    try apply count_nonneg.
  rewrite count_cons. specialize (IH g).
  case_strict x y; cbn [andb]; destruct (strict_eq y c); lia.
Qed.

(** Every agreeing position agrees on exactly one colour. *)
Lemma agree_by_colour s g D :
  NoDup D -> incl s D -> sumZ (fun c => agree_on c s g) D = agree s g.
Proof.
  intros HD. revert g. induction s as [|x s IH]; intros g Hin.
  - simpl. clear. induction D as [|d D IHD]; simpl; lia.
  - destruct g as [|y g].
    + simpl. clear. induction D as [|d D IHD]; simpl; lia.
    + simpl agree.
      rewrite (sumZ_ext_in _
        (fun c => (if strict_eq x c then (if strict_eq x y then 1 else 0) else 0)
                  + agree_on c s g)).
      * rewrite sumZ_add, sumZ_indicator, IH; try assumption.
        -- reflexivity.
        -- intros c Hc. apply Hin. right. assumption.
        -- apply Hin. left. reflexivity.
      * intros c _. simpl.
        destruct (strict_eq x y), (strict_eq x c); reflexivity.
Qed.

(** ** The black count *)

Lemma filter_seq_shift (P : nat -> bool) n i :
  filter P (seq (S i) n) = map S (filter (fun j => P (S j)) (seq i n)).
Proof.
  rewrite <- seq_shift.
  induction (seq i n) as [|a l IH]; simpl; [reflexivity|].
  destruct (P (S a)); simpl; rewrite IH; reflexivity.
Qed.

(** The reduction, started at index [i] on the tail [rest] of the secret
    [pre ++ rest], counts the agreeing indices from [i] on. *)
Lemma reduce_blacks_from pre rest guess acc :
  reduce_blacks rest guess (List.length pre) acc
  = acc + Z.of_nat
            (List.length
               (filter (fun i => strict_eq (index (pre ++ rest) i) (index guess i))
                  (seq (List.length pre) (List.length rest)))).
Proof.
  revert pre acc. induction rest as [|s rest IH]; intros pre acc.
  - simpl. lia.
  - simpl reduce_blacks. simpl List.length. simpl seq. simpl filter.
    replace (index (pre ++ s :: rest) (List.length pre)) with s
      by (unfold index; rewrite app_nth2, Nat.sub_diag by lia; reflexivity).
    specialize
      (IH (pre ++ [s])
          (acc + (if strict_eq s (index guess (List.length pre)) then 1 else 0))).
    rewrite length_app in IH. simpl List.length in IH.
    rewrite Nat.add_1_r in IH. rewrite IH.
    rewrite <- app_assoc. simpl app.
    destruct (strict_eq s (index guess (List.length pre))); simpl List.length; lia.
Qed.

Lemma reduce_blacks_exact secret guess :
  reduce_blacks secret guess 0 0 = exact_spec secret guess.
Proof. apply (reduce_blacks_from [] secret guess 0). Qed.

Lemma reduce_blacks_agree_from s guess i acc :
  (i + List.length s <= List.length guess)%nat ->
  reduce_blacks s guess i acc = acc + agree s (skipn i guess).
Proof.
  revert i acc. induction s as [|x s IH]; intros i acc Hlen.
  - simpl. lia.
  - simpl List.length in Hlen. simpl reduce_blacks.
    rewrite IH by lia.
    assert (Hsk : skipn i guess = index guess i :: skipn (S i) guess).
    { clear - Hlen. revert guess Hlen. induction i as [|i IHi]; intros [|y g] H;
        simpl in H; try lia; [reflexivity|].
      simpl skipn at 1. rewrite IHi by lia. reflexivity. }
    rewrite Hsk. simpl agree. lia.
Qed.

Lemma reduce_blacks_agree secret guess :
  List.length secret = List.length guess ->
  reduce_blacks secret guess 0 0 = agree secret guess.
Proof.
  intros H. rewrite reduce_blacks_agree_from by (simpl; lia). reflexivity.
Qed.

(** ** The count maps *)

Lemma map_get_set_same m c v : map_get (map_set m c v) c = Some v.
Proof.
  induction m as [|[c' v'] m IH]; simpl.
  - rewrite strict_eq_refl. reflexivity.
  - destruct (strict_eq c' c) eqn:E; simpl; rewrite E; [reflexivity|assumption].
Qed.

Lemma map_get_set_other m c v c' :
  c <> c' -> map_get (map_set m c v) c' = map_get m c'.
Proof.
  intros Hne. induction m as [|[d w] m IH]; simpl.
  - apply strict_eq_false in Hne. rewrite Hne. reflexivity.
  - case_strict d c; simpl.
    + apply strict_eq_false in Hne. rewrite Hne. reflexivity.
    + rewrite IH. reflexivity.
Qed.

Lemma map_set_keys_in m c v c' :
  In c' (map fst (map_set m c v)) <-> In c' (map fst m) \/ c' = c.
Proof.
  induction m as [|[d w] m IH]; simpl.
  - intuition congruence.
  - case_strict d c; simpl; [intuition congruence|].
    rewrite IH. tauto.
Qed.

Lemma map_set_keys_nodup m c v :
  NoDup (map fst m) -> NoDup (map fst (map_set m c v)).
Proof.
  induction m as [|[d w] m IH]; simpl; intros H.
  - constructor; [intros []|constructor].
  - inversion H as [|? ? Hd Hm]; subst.
    case_strict d c; simpl; constructor; try assumption.
    + rewrite map_set_keys_in. intros [Hin|Heq]; [contradiction|congruence].
    + apply IH. assumption.
Qed.

Lemma map_get_none m c : ~ In c (map fst m) -> map_get m c = None.
Proof.
  induction m as [|[d w] m IH]; simpl; intros H; [reflexivity|].
  case_strict d c; [tauto|]. apply IH. tauto.
Qed.

Lemma tally_get l : forall m c,
  or0 (map_get (tally m l) c) = or0 (map_get m c) + count l c.
Proof.
  unfold tally. induction l as [|x l IH]; intros m c; simpl fold_left.
  - rewrite count_nil. lia.
  - rewrite IH, count_cons.
    case_strict x c.
    + rewrite map_get_set_same. simpl or0. lia.
    + rewrite map_get_set_other by assumption. lia.
Qed.

Lemma tally_keys_in l : forall m c,
  In c (map fst (tally m l)) <-> In c (map fst m) \/ In c l.
Proof.
  unfold tally. induction l as [|x l IH]; intros m c; simpl fold_left.
  - simpl. tauto.
  - rewrite IH, map_set_keys_in. simpl. intuition congruence.
Qed.

Lemma tally_keys_nodup l : forall m,
  NoDup (map fst m) -> NoDup (map fst (tally m l)).
Proof.
  unfold tally. induction l as [|x l IH]; intros m H; simpl fold_left.
  - assumption.
  - apply IH, map_set_keys_nodup, H.
Qed.

(** The loop over the entries of a map, as a sum over its keys. *)
Lemma overlap_loop_from (gue : JsMap) m : forall acc,
  NoDup (map fst m) ->
  fold_left
    (fun overlap (e : value * Z) =>
       let (k, sc) := e in
       let gc := or0 (map_get gue k) in
       overlap + Z.min sc gc) m acc
  = acc + sumZ (fun c => Z.min (or0 (map_get m c)) (or0 (map_get gue c)))
            (map fst m).
Proof.
  induction m as [|[d w] m IH]; intros acc H; simpl fold_left.
  - simpl. lia.
  - inversion H as [|? ? Hd Hm]; subst.
    rewrite IH by assumption. simpl map. simpl sumZ.
    simpl map_get at 2. rewrite strict_eq_refl. simpl or0 at 2.
    rewrite (sumZ_ext_in
               (fun c => Z.min (or0 (map_get ((d, w) :: m) c)) (or0 (map_get gue c)))
               (fun c => Z.min (or0 (map_get m c)) (or0 (map_get gue c)))).
    + cbn [or0]. lia.
    + intros c Hc. simpl map_get.
      case_strict d c; [contradiction|reflexivity].
Qed.

(** The overlap computed by the loop is the overlap of the specification. *)
Lemma overlap_loop_spec secret guess :
  overlap_loop (tally [] secret) (tally [] guess) = overlap_spec secret guess.
Proof.
  unfold overlap_loop, overlap_spec, colours.
  rewrite overlap_loop_from by (apply tally_keys_nodup; constructor).
  rewrite (sumZ_ext_in _ (fun c => Z.min (count secret c) (count guess c)))
    by (intros c _; rewrite !tally_get; reflexivity).
  simpl. apply sumZ_support.
  - apply tally_keys_nodup. constructor.
  - apply NoDup_nodup.
  - intros c Hc. rewrite tally_keys_in, nodup_In, in_app_iff. simpl.
    assert (In c secret).
    { apply count_pos_in. pose proof (count_nonneg guess c). lia. }
    tauto.
Qed.

Lemma overlap_spec_sym a b : overlap_spec a b = overlap_spec b a.
Proof.
  unfold overlap_spec, colours.
  rewrite (sumZ_ext_in _ (fun c => Z.min (count b c) (count a c)))
    by (intros; apply Z.min_comm).
  apply sumZ_support; try apply NoDup_nodup.
  intros c _. rewrite !nodup_In, !in_app_iff. tauto.
Qed.

Lemma overlap_spec_le_length secret guess :
  overlap_spec secret guess <= Z.of_nat (List.length secret).
Proof.
  unfold overlap_spec, colours.
  rewrite <- (sumZ_count secret (nodup value_eq_dec (secret ++ guess))).
  - apply sumZ_le. intros. lia.
  - apply NoDup_nodup.
  - intros c Hc. apply nodup_In, in_app_iff. left. assumption.
Qed.

Lemma agree_le_overlap secret guess :
  agree secret guess <= overlap_spec secret guess.
Proof.
  unfold overlap_spec, colours.
  rewrite <- (agree_by_colour secret guess (nodup value_eq_dec (secret ++ guess))).
  - apply sumZ_le. intros c _.
    pose proof (agree_on_le_count_l c secret guess).
    pose proof (agree_on_le_count_r c secret guess). lia.
  - apply NoDup_nodup.
  - intros c Hc. apply nodup_In, in_app_iff. left. assumption.
Qed.

Lemma overlap_spec_refl s : overlap_spec s s = Z.of_nat (List.length s).
Proof.
  unfold overlap_spec, colours.
  rewrite (sumZ_ext_in _ (count s)) by (intros; apply Z.min_id).
  apply sumZ_count; [apply NoDup_nodup|].
  intros c Hc. apply nodup_In, in_app_iff. left. assumption.
Qed.

(** ** The scorer: the rule, its bounds and its symmetries *)

(** C1.  For codes of equal length, [scoreGuess] returns as [blacks] the
    number of indices at which secret and guess hold the same colour, and as
    [whites] the overlap minus that number, the overlap being the sum over
    the colours of the smaller of the two counts, all positions counted.
    On secret [r,r,b,g] and guess [r,b,b,y] the feedback is (2, 0): the
    codes agree at indices 0 and 2, and the overlap is 2. *)
Theorem scoreGuess_rule :
  (forall secret guess,
      List.length secret = List.length guess ->
      blacks (scoreGuess secret guess) = exact_spec secret guess
      /\ whites (scoreGuess secret guess)
         = overlap_spec secret guess - exact_spec secret guess)
  /\ scoreGuess [red; red; blue; green] [red; blue; blue; yellow]
     = {| blacks := 2; whites := 0 |}.
Proof.
  split; [|reflexivity].
  intros secret guess Hlen. unfold scoreGuess. simpl blacks. simpl whites.
  rewrite overlap_loop_spec, reduce_blacks_exact. split; [reflexivity|].
  pose proof (agree_le_overlap secret guess) as H.
  rewrite <- reduce_blacks_agree, reduce_blacks_exact in H by assumption.
  lia.
Qed.

Lemma scoreGuess_rule_witness :
  List.length [red; blue; green; yellow]
  = List.length [yellow; yellow; red; blue]
  /\ blacks (scoreGuess [red; blue; green; yellow] [yellow; yellow; red; blue])
     = exact_spec [red; blue; green; yellow] [yellow; yellow; red; blue]
  /\ whites (scoreGuess [red; blue; green; yellow] [yellow; yellow; red; blue])
     = overlap_spec [red; blue; green; yellow] [yellow; yellow; red; blue]
       - exact_spec [red; blue; green; yellow] [yellow; yellow; red; blue].
Proof.
  split; [reflexivity|].
  apply (proj1 scoreGuess_rule
           [red; blue; green; yellow] [yellow; yellow; red; blue]).
  reflexivity.
Defined.

(** C1, as first stated, asks for the feedback (1, 1) on secret [r,r,b,g]
    and guess [r,b,b,y].  The code returns (2, 0): index 2 holds [b] in
    both codes, so two positions agree, not one. *)
Lemma scoreGuess_example_not_1_1 :
  scoreGuess [red; red; blue; green] [red; blue; blue; yellow]
  = {| blacks := 2; whites := 0 |}
  /\ scoreGuess [red; red; blue; green] [red; blue; blue; yellow]
     <> {| blacks := 1; whites := 1 |}
  /\ exact_spec [red; red; blue; green] [red; blue; blue; yellow] = 2
  /\ overlap_spec [red; red; blue; green] [red; blue; blue; yellow] = 2.
Proof.
  repeat split; try reflexivity. discriminate.
Qed.

(** C3.  Scoring a code against itself gives (length, 0); and for codes of
    equal length the black count equals the length exactly when the guess
    is the secret, duplicates or not. *)
Theorem scoreGuess_identical :
  (forall s,
      scoreGuess s s = {| blacks := Z.of_nat (List.length s); whites := 0 |})
  /\ (forall secret guess,
         List.length secret = List.length guess ->
         (blacks (scoreGuess secret guess) = Z.of_nat (List.length secret)
          <-> guess = secret)).
Proof.
  split.
  - intros s. unfold scoreGuess.
    rewrite overlap_loop_spec, reduce_blacks_agree, agree_refl, overlap_spec_refl
      by reflexivity.
    f_equal. lia.
  - intros secret guess Hlen. unfold scoreGuess. simpl blacks.
    rewrite reduce_blacks_agree by assumption. split.
    + intros H. symmetry. apply agree_full; assumption.
    + intros ->. apply agree_refl.
Qed.

Lemma scoreGuess_identical_witness :
  List.length [red; red; blue] = List.length [red; blue; red]
  /\ (blacks (scoreGuess [red; red; blue] [red; blue; red])
      = Z.of_nat (List.length [red; red; blue])
      <-> [red; blue; red] = [red; red; blue]).
Proof.
  split; [reflexivity|].
  apply (proj2 scoreGuess_identical [red; red; blue] [red; blue; red]).
  reflexivity.
Defined.

(** C4.  For codes of equal length, [0 <= blacks <= length], [0 <= whites]
    and [blacks + whites <= length]. *)
Theorem scoreGuess_bounds secret guess :
  List.length secret = List.length guess ->
  0 <= blacks (scoreGuess secret guess) <= Z.of_nat (List.length secret)
  /\ 0 <= whites (scoreGuess secret guess)
  /\ blacks (scoreGuess secret guess) + whites (scoreGuess secret guess)
     <= Z.of_nat (List.length secret).
Proof.
  intros Hlen. unfold scoreGuess. simpl blacks. simpl whites.
  rewrite overlap_loop_spec, reduce_blacks_agree by assumption.
  pose proof (agree_nonneg secret guess).
  pose proof (agree_le_length secret guess).
  pose proof (agree_le_overlap secret guess).
  pose proof (overlap_spec_le_length secret guess).
  lia.
Qed.

Lemma scoreGuess_bounds_witness :
  List.length [red; red; blue; green] = List.length [blue; red; red; yellow]
  /\ 0 <= blacks (scoreGuess [red; red; blue; green] [blue; red; red; yellow])
       <= 4
  /\ 0 <= whites (scoreGuess [red; red; blue; green] [blue; red; red; yellow])
  /\ blacks (scoreGuess [red; red; blue; green] [blue; red; red; yellow])
     + whites (scoreGuess [red; red; blue; green] [blue; red; red; yellow])
     <= 4.
Proof.
  split; [reflexivity|].
  apply (scoreGuess_bounds [red; red; blue; green] [blue; red; red; yellow]).
  reflexivity.
Defined.

(** C9.  For codes of equal length the feedback does not depend on which of
    the two is taken as the secret: blacks and whites are both unchanged
    when the arguments are exchanged. *)
Theorem scoreGuess_symmetric a b :
  List.length a = List.length b ->
  blacks (scoreGuess a b) = blacks (scoreGuess b a)
  /\ whites (scoreGuess a b) = whites (scoreGuess b a).
Proof.
  intros Hlen. unfold scoreGuess. simpl blacks. simpl whites.
  rewrite !overlap_loop_spec, !reduce_blacks_agree by congruence.
  rewrite (agree_sym a b), (overlap_spec_sym a b). split; reflexivity.
Qed.

Lemma scoreGuess_symmetric_witness :
  List.length [red; red; blue; green] = List.length [red; blue; blue; yellow]
  /\ blacks (scoreGuess [red; red; blue; green] [red; blue; blue; yellow])
     = blacks (scoreGuess [red; blue; blue; yellow] [red; red; blue; green])
  /\ whites (scoreGuess [red; red; blue; green] [red; blue; blue; yellow])
     = whites (scoreGuess [red; blue; blue; yellow] [red; red; blue; green]).
Proof.
  split; [reflexivity|].
  apply (scoreGuess_symmetric
           [red; red; blue; green] [red; blue; blue; yellow]).
  reflexivity.
Defined.

(** ** Computations that return *)

Lemma returns_ret {A : Type} (a : A) (P : A -> Prop) : P a -> returns (ret a) P.
Proof. intros H g. exists a, g. split; [reflexivity|assumption]. Qed.

Lemma returns_bind {A B : Type} (c : M A) (k : A -> M B)
    (P : A -> Prop) (Q : B -> Prop) :
  returns c P -> (forall a, P a -> returns (k a) Q) -> returns (bind c k) Q.
Proof.
  intros Hc Hk g. destruct (Hc g) as (a & g1 & E & Ha).
  destruct (Hk a Ha g1) as (b & g2 & E2 & Hb).
  exists b, g2. unfold bind. rewrite E. split; assumption.
Qed.

Lemma returns_weaken {A : Type} (c : M A) (P Q : A -> Prop) :
  returns c P -> (forall a, P a -> Q a) -> returns c Q.
Proof.
  intros Hc H g. destruct (Hc g) as (a & g1 & E & Ha).
  exists a, g1. split; [assumption|apply H, Ha].
Qed.

(** ** The random source *)

Lemma Math_random_range : returns Math_random (fun k => 0 <= k < 2 ^ 53).
Proof.
  intros g. eexists _, _. split; [reflexivity|].
  apply Z.mod_pos_bound. lia.
Qed.

Lemma random_below_range n :
  0 <= n -> returns (random_below n) (fun i => 0 <= i /\ (0 < n -> i < n)).
Proof.
  intros Hn. unfold random_below.
  apply (returns_bind _ _ _ _ Math_random_range).
  intros k Hk. apply returns_ret. split.
  - apply Z.div_pos; nia.
  - intros Hpos. apply Z.div_lt_upper_bound; nia.
Qed.

Lemma random_order_total : total_cmp random_order.
Proof.
  intros a b. unfold random_order.
  apply (returns_bind _ _ _ _ Math_random_range).
  intros. apply returns_ret. exact I.
Qed.

(** ** [Array.from] and [slice] *)

Lemma array_from_returns n f (P : value -> Prop) :
  returns f P ->
  returns (array_from n f) (fun l => List.length l = n /\ Forall P l).
Proof.
  intros Hf. induction n as [|n IH]; simpl.
  - apply returns_ret. split; [reflexivity|constructor].
  - apply (returns_bind _ _ _ _ Hf). intros x Hx.
    apply (returns_bind _ _ _ _ IH). intros xs [Hlen Hall].
    apply returns_ret. split; [simpl; congruence|constructor; assumption].
Qed.

Lemma slice0_length a e :
  0 <= e <= Z.of_nat (List.length a) ->
  Z.of_nat (List.length (slice0 a e)) = e.
Proof.
  intros H. unfold slice0.
  destruct (Z.ltb_spec e 0); [lia|].
  rewrite length_firstn. lia.
Qed.

Lemma slice0_incl a e : incl (slice0 a e) a.
Proof.
  unfold slice0. intros x Hx.
  match type of Hx with In _ (firstn ?n _) => rewrite <- (firstn_skipn n a) end.
  apply in_or_app. left. assumption.
Qed.

Lemma slice0_nodup a e : NoDup a -> NoDup (slice0 a e).
Proof.
  unfold slice0. intros H.
  rewrite <- (firstn_skipn (Z.to_nat (if e <? 0
                                       then Z.max (Z.of_nat (List.length a) + e) 0
                                       else Z.min e (Z.of_nat (List.length a)))) a) in H.
  apply NoDup_app_remove_r in H. assumption.
Qed.

Lemma slice0_zero a : slice0 a 0 = [].
Proof. unfold slice0. simpl. destruct a; reflexivity. Qed.

(** ** The engine sort used for running the model *)

Lemma insert_by_permutes cmp x l :
  total_cmp cmp ->
  returns (insert_by cmp x l) (fun l' => Permutation (x :: l) l').
Proof.
  intros Hc. induction l as [|y t IH]; simpl.
  - apply returns_ret. apply Permutation_refl.
  - apply (returns_bind _ _ _ _ (Hc x y)). intros c _.
    destruct (c <=? 0).
    + apply returns_ret. apply Permutation_refl.
    + apply (returns_bind _ _ _ _ IH). intros t' Ht.
      apply returns_ret.
      apply perm_trans with (y :: x :: t); [apply perm_swap|].
      apply perm_skip. assumption.
Qed.

Lemma insertion_sort_permutes : sort_permutes insertion_sort.
Proof.
  intros cmp l Hc. induction l as [|x t IH]; simpl.
  - apply returns_ret. apply Permutation_refl.
  - apply (returns_bind _ _ _ _ IH). intros s Hs.
    apply (returns_weaken _ _ _ (insert_by_permutes cmp x s Hc)).
    intros l' Hl'. apply perm_trans with (x :: s); [|assumption].
    apply perm_skip. assumption.
Qed.

(** ** The code generator *)

Section GeneratorFacts.

Variable array_sort : (value -> value -> M Z) -> list value -> M (list value).

(** The draw of one slot: a key of the palette, or [undefined] when the
    palette is empty. *)
Lemma random_key_returns keys :
  returns
    (i <- random_below (Z.of_nat (List.length keys)) ;;
     ret (index keys (Z.to_nat i)))
    (fun v => (keys <> [] -> In v keys) /\ (keys = [] -> Undefined = v)).
Proof.
  apply (returns_bind _ _ _ _ (random_below_range _ (Nat2Z.is_nonneg _))).
  intros i [H0 Hlt]. apply returns_ret. split.
  - intros Hne. apply nth_In.
    destruct keys as [|x keys]; [congruence|]. simpl List.length in *. lia.
  - intros ->. unfold index. destruct (Z.to_nat i); reflexivity.
Qed.

Lemma randomCode_with_replacement keys length :
  returns (randomCode array_sort keys length true)
    (fun code =>
       List.length code = Z.to_nat length
       /\ (keys <> [] -> incl code keys)
       /\ (keys = [] -> code = repeat Undefined (Z.to_nat length))).
Proof.
  unfold randomCode.
  apply (returns_weaken _ _ _
           (array_from_returns (Z.to_nat length) _ _ (random_key_returns keys))).
  intros code [Hlen Hall]. split; [assumption|]. split.
  - intros Hne c Hc. rewrite Forall_forall in Hall. apply (Hall c Hc), Hne.
  - intros Hnil. rewrite <- Hlen. apply Forall_eq_repeat.
    eapply Forall_impl; [|exact Hall]. intros v [_ H]. apply H, Hnil.
Qed.

(** The fallback is the generation with replacement itself. *)
Lemma randomCode_fallback keys length :
  length > Z.of_nat (List.length keys) ->
  randomCode array_sort keys length false = randomCode array_sort keys length true.
Proof.
  intros H. unfold randomCode.
  destruct (Z.gtb_spec length (Z.of_nat (List.length keys))); [reflexivity|lia].
Qed.

Hypothesis array_sort_permutes : sort_permutes array_sort.

Lemma randomCode_shuffled keys length :
  length <= Z.of_nat (List.length keys) ->
  returns (randomCode array_sort keys length false)
    (fun code =>
       (exists sorted, Permutation keys sorted /\ code = slice0 sorted length)
       /\ incl code keys
       /\ (NoDup keys -> NoDup code)).
Proof.
  intros H. unfold randomCode.
  destruct (Z.gtb_spec length (Z.of_nat (List.length keys))); [lia|].
  apply (returns_bind _ _ _ _ (array_sort_permutes _ keys random_order_total)).
  intros sorted Hperm. apply returns_ret. split; [|split].
  - exists sorted. split; [assumption|reflexivity].
  - intros c Hc. apply slice0_incl in Hc.
    apply Permutation_in with sorted; [apply Permutation_sym|]; assumption.
  - intros Hnd. apply slice0_nodup. apply Permutation_NoDup with keys; assumption.
Qed.

(** Whatever is asked of it, [randomCode] returns. *)
Lemma randomCode_returns keys length allowDuplicates :
  returns (randomCode array_sort keys length allowDuplicates) (fun _ => True).
Proof.
  destruct allowDuplicates.
  - eapply returns_weaken; [apply randomCode_with_replacement|]. trivial.
  - destruct (Z.gtb_spec length (Z.of_nat (List.length keys))).
    + rewrite randomCode_fallback by lia.
      eapply returns_weaken; [apply randomCode_with_replacement|]. trivial.
    + eapply returns_weaken; [apply randomCode_shuffled; lia|]. trivial.
Qed.

(** For a length that is not negative the code has that length. *)
Lemma randomCode_length keys length allowDuplicates :
  0 <= length ->
  returns (randomCode array_sort keys length allowDuplicates)
    (fun code => Z.of_nat (List.length code) = length).
Proof.
  intros H0.
  assert (Hdup : returns (randomCode array_sort keys length true)
                   (fun code => Z.of_nat (List.length code) = length)).
  { eapply returns_weaken; [apply randomCode_with_replacement|].
    intros code (Hlen & _). lia. }
  destruct allowDuplicates; [assumption|].
  destruct (Z.gtb_spec length (Z.of_nat (List.length keys))).
  - rewrite randomCode_fallback by lia. assumption.
  - eapply returns_weaken; [apply randomCode_shuffled; lia|].
    intros code ((sorted & Hperm & ->) & _).
    apply slice0_length. rewrite <- (Permutation_length Hperm). lia.
Qed.

End GeneratorFacts.

(** C5.  With [allowDuplicates = false] and a palette of distinct keys: if
    [length <= |palette|] the code that is returned has exactly [length]
    slots, pairwise distinct, each a key of the palette; if
    [length > |palette|] the call is the generation with replacement, and
    it returns a code of exactly [length] slots (keys of the palette, when
    the palette has any). *)
Theorem randomCode_no_duplicates array_sort keys length g :
  sort_permutes array_sort ->
  NoDup keys ->
  0 <= length ->
  (length <= Z.of_nat (List.length keys) ->
   exists code g',
     randomCode array_sort keys length false g = Normal (code, g')
     /\ Z.of_nat (List.length code) = length
     /\ NoDup code
     /\ incl code keys)
  /\ (length > Z.of_nat (List.length keys) ->
      randomCode array_sort keys length false
      = randomCode array_sort keys length true
      /\ exists code g',
          randomCode array_sort keys length false g = Normal (code, g')
          /\ Z.of_nat (List.length code) = length
          /\ (keys <> [] -> incl code keys)).
Proof.
  intros Hsort Hnd H0. split; intros Hlen.
  - destruct (randomCode_shuffled array_sort Hsort keys length Hlen g)
      as (code & g' & E & (sorted & Hperm & Hcode) & Hincl & Hnodup).
    exists code, g'. repeat split; try assumption; [|apply Hnodup, Hnd].
    subst code. apply slice0_length.
    rewrite <- (Permutation_length Hperm). lia.
  - split; [apply randomCode_fallback; assumption|].
    rewrite randomCode_fallback by assumption.
    destruct (randomCode_with_replacement array_sort keys length g)
      as (code & g' & E & Hl & Hincl & _).
    exists code, g'. repeat split; try assumption. lia.
Qed.

Ltac nodup_concrete :=
  repeat (constructor; [simpl; intuition discriminate|]); constructor.

Lemma default_keys_nodup : NoDup default_keys.
Proof. unfold default_keys. simpl. nodup_concrete. Qed.

Lemma randomCode_no_duplicates_witness :
  (exists code g',
      randomCode insertion_sort default_keys 4 false mixed = Normal (code, g')
      /\ Z.of_nat (List.length code) = 4
      /\ NoDup code
      /\ incl code default_keys)
  /\ (randomCode insertion_sort [red; blue] 3 false
      = randomCode insertion_sort [red; blue] 3 true
      /\ exists code g',
          randomCode insertion_sort [red; blue] 3 false mixed = Normal (code, g')
          /\ Z.of_nat (List.length code) = 3
          /\ ([red; blue] <> [] -> incl code [red; blue])).
Proof.
  split.
  - apply (randomCode_no_duplicates insertion_sort default_keys 4 mixed
             insertion_sort_permutes default_keys_nodup);
      simpl; lia.
  - apply (randomCode_no_duplicates insertion_sort [red; blue] 3 mixed
             insertion_sort_permutes);
      [nodup_concrete|lia|simpl; lia].
Defined.

Example randomCode_shuffle_run :
  exists g',
    randomCode insertion_sort default_keys 4 false mixed
    = Normal ([blue; red; yellow; green], g').
Proof. eexists. reflexivity. Qed.

(** C8, as first stated, asks that generation from an empty palette, or
    with a length that is not positive, fail with InvalidConfiguration.
    The code returns: three [undefined] slots from the empty palette, the
    empty code for length 0. *)
Lemma randomCode_degenerate_returns :
  (exists g',
      randomCode insertion_sort [] 3 true mixed
      = Normal ([Undefined; Undefined; Undefined], g'))
  /\ randomCode insertion_sort [] 3 true mixed <> Throw InvalidConfiguration
  /\ randomCode insertion_sort default_keys 0 true mixed = Normal ([], mixed)
  /\ randomCode insertion_sort default_keys 0 true mixed
     <> Throw InvalidConfiguration.
Proof.
  split; [eexists; reflexivity|].
  split; [discriminate|].
  split; [reflexivity|discriminate].
Qed.

(** C8, amended.  On a degenerate input, a length that is not positive or
    an empty palette, [randomCode] raises no error and returns a code: for
    the empty palette a code of [length] slots that all hold [undefined]
    (no slot when the length is not positive); for length 0 the empty code;
    for a negative length with duplicates allowed the empty code. *)
Theorem randomCode_degenerate array_sort keys length allowDuplicates g :
  sort_permutes array_sort ->
  length <= 0 \/ keys = [] ->
  exists code g',
    randomCode array_sort keys length allowDuplicates g = Normal (code, g')
    /\ (keys = [] -> code = repeat Undefined (Z.to_nat length))
    /\ (length = 0 -> code = [])
    /\ (length < 0 -> allowDuplicates = true -> code = []).
Proof.
  intros Hsort Hdeg.
  assert (Hdup : exists code g',
             randomCode array_sort keys length true g = Normal (code, g')
             /\ (keys = [] -> code = repeat Undefined (Z.to_nat length))
             /\ (length <= 0 -> code = [])).
  { destruct (randomCode_with_replacement array_sort keys length g)
      as (code & g' & E & Hl & _ & Hnil).
    exists code, g'. repeat split; try assumption.
    intros Hle. apply length_zero_iff_nil. lia. }
  destruct allowDuplicates.
  - destruct Hdup as (code & g' & E & Hnil & Hle).
    exists code, g'. repeat split; try assumption; intros; apply Hle; lia.
  - destruct (Z.gtb_spec length (Z.of_nat (List.length keys))) as [Hgt|Hle].
    + rewrite randomCode_fallback by lia.
      destruct Hdup as (code & g' & E & Hnil & Hle).
      exists code, g'. repeat split; try assumption; [|discriminate].
      intros; apply Hle; lia.
    + destruct (randomCode_shuffled array_sort Hsort keys length Hle g)
        as (code & g' & E & (sorted & Hperm & ->) & _).
      exists (slice0 sorted length), g'. repeat split; try assumption.
      * intros ->. apply Permutation_nil in Hperm. subst sorted.
        simpl in Hle. unfold slice0. simpl List.length.
        rewrite firstn_nil. replace (Z.to_nat length) with O by lia. reflexivity.
      * intros ->. apply slice0_zero.
      * discriminate.
Qed.

Lemma randomCode_degenerate_witness :
  exists code g',
    randomCode insertion_sort [] 3 false mixed = Normal (code, g')
    /\ (@nil value = [] -> code = repeat Undefined (Z.to_nat 3))
    /\ (3 = 0 -> code = [])
    /\ (3 < 0 -> false = true -> code = []).
Proof.
  apply (randomCode_degenerate insertion_sort [] 3 false mixed
           insertion_sort_permutes).
  right. reflexivity.
Defined.

(** ** The session *)

Lemma at_last_snoc h a : App.at_last (h ++ [a]) = Some a.
Proof. unfold App.at_last. rewrite map_app. simpl. apply last_last. Qed.

(** An accepted submit, written out. *)
Lemma submit_accepted st :
  App.canSubmit st = true ->
  App.submit st
  = let fb := scoreGuess (App.secret st) (App.current st) in
    let st1 :=
      App.setHistory
        (App.history st ++ [{| App.guess := App.current st; App.feedback := fb |}])
        st in
    if blacks fb =? App.length st then Normal (App.setGameOver true st1)
    else if Z.of_nat (List.length (App.history st1)) >=? App.attempts st
         then Normal (App.setGameOver true st1)
         else Normal (App.setCursor 0
                        (App.setCurrent (App.empty_row (App.length st)) st1)).
Proof. intros Hcan. unfold App.submit. rewrite Hcan. reflexivity. Qed.

Lemma canSubmit_not_over st :
  App.canSubmit st = true -> App.gameOver st = false.
Proof.
  unfold App.canSubmit. intros H. apply andb_true_iff in H.
  destruct H as [_ H]. apply negb_true_iff in H. exact H.
Qed.

(** C2, as first stated, makes the loss depend on
    [history.length == maxAttempts].  The code tests
    [newHistory.length >= attempts], and the two differ once the attempt
    budget has been lowered below the number of guesses already made: here
    two wrong guesses are made, the budget is set to 1, and the third wrong
    guess ends the game as lost with a history of 3. *)
Lemma submit_over_budget_is_lost :
  exists st g' st',
    App.session insertion_sort
      [App.ClickPalette 1; App.ClickPalette 1; App.ClickPalette 1;
       App.ClickPalette 1; App.ClickGuess;
       App.ClickPalette 1; App.ClickPalette 1; App.ClickPalette 1;
       App.ClickPalette 1; App.ClickGuess;
       App.ChangeAttempts 1;
       App.ClickPalette 1; App.ClickPalette 1; App.ClickPalette 1;
       App.ClickPalette 1] zeros = Normal (st, g')
    /\ App.canSubmit st = true
    /\ App.status_of st = App.InProgress
    /\ App.submit st = Normal st'
    /\ blacks (scoreGuess (App.secret st) (App.current st)) <> App.length st
    /\ Z.of_nat (List.length (App.history st')) = 3
    /\ App.attempts st = 1
    /\ App.status_of st' = App.Lost
    /\ App.status_of st' <> App.InProgress.
Proof.
  eexists _, _, _.
  split; [vm_compute; reflexivity|].
  split; [reflexivity|].
  split; [reflexivity|].
  split; [vm_compute; reflexivity|].
  split; [vm_compute; discriminate|].
  split; [reflexivity|].
  split; [reflexivity|].
  split; [reflexivity|discriminate].
Qed.

(** C2, amended.  A submit of a complete guess while the game is on
    appends the attempt to the history and then decides, in this order:
    if the blacks equal the configured length the status is Won (whatever
    the number of attempts); otherwise if the length of the history has
    reached the attempt budget, [history.length >= maxAttempts], the status
    is Lost; otherwise the status stays InProgress. *)
Theorem submit_outcome st :
  App.canSubmit st = true ->
  exists st',
    App.submit st = Normal st'
    /\ App.history st'
       = App.history st
         ++ [{| App.guess := App.current st;
                App.feedback := scoreGuess (App.secret st) (App.current st) |}]
    /\ App.secret st' = App.secret st
    /\ App.status_of st'
       = if blacks (scoreGuess (App.secret st) (App.current st)) =? App.length st
         then App.Won
         else if Z.of_nat (List.length (App.history st')) >=? App.attempts st
              then App.Lost
              else App.InProgress.
Proof.
  intros Hcan. pose proof (canSubmit_not_over st Hcan) as Hgo.
  rewrite (submit_accepted st Hcan).
  cbv zeta. cbn [App.history App.setHistory].
  remember (scoreGuess (App.secret st) (App.current st)) as fb eqn:Hfb.
  remember {| App.guess := App.current st; App.feedback := fb |} as attempt
    eqn:Hattempt.
  destruct (blacks fb =? App.length st) eqn:Hwin;
    [|destruct (Z.of_nat (List.length (App.history st ++ [attempt]))
                >=? App.attempts st) eqn:Hfull];
    (eexists; split; [reflexivity|]); simpl;
    (split; [reflexivity|]); (split; [reflexivity|]);
    unfold App.status_of, App.cracked; simpl;
    rewrite ?at_last_snoc, ?Hgo, ?Hfull; subst attempt; simpl;
    rewrite ?Hwin; reflexivity.
Qed.

Lemma submit_outcome_witness :
  exists st',
    App.submit demo_state = Normal st'
    /\ App.history st'
       = App.history demo_state
         ++ [{| App.guess := App.current demo_state;
                App.feedback :=
                  scoreGuess (App.secret demo_state) (App.current demo_state) |}]
    /\ App.secret st' = App.secret demo_state
    /\ App.status_of st'
       = if blacks (scoreGuess (App.secret demo_state) (App.current demo_state))
            =? App.length demo_state
         then App.Won
         else if Z.of_nat (List.length (App.history st'))
                 >=? App.attempts demo_state
              then App.Lost
              else App.InProgress.
Proof.
  apply (submit_outcome demo_state). reflexivity.
Defined.

(** While the history is shorter than the budget, reaching the budget and
    being equal to it are the same test. *)
Lemma submit_outcome_within_budget st :
  App.canSubmit st = true ->
  Z.of_nat (List.length (App.history st)) < App.attempts st ->
  exists st',
    App.submit st = Normal st'
    /\ App.status_of st'
       = if blacks (scoreGuess (App.secret st) (App.current st)) =? App.length st
         then App.Won
         else if Z.of_nat (List.length (App.history st')) =? App.attempts st
              then App.Lost
              else App.InProgress.
Proof.
  intros Hcan Hlt. pose proof (canSubmit_not_over st Hcan) as Hgo.
  rewrite (submit_accepted st Hcan).
  cbv zeta. cbn [App.history App.setHistory].
  remember (scoreGuess (App.secret st) (App.current st)) as fb eqn:Hfb.
  remember {| App.guess := App.current st; App.feedback := fb |} as attempt
    eqn:Hattempt.
  assert (Hlen : Z.of_nat (List.length (App.history st ++ [attempt]))
                 = Z.of_nat (List.length (App.history st)) + 1)
    by (rewrite length_app; simpl; lia).
  destruct (blacks fb =? App.length st) eqn:Hwin;
    [|destruct (Z.geb_spec
                  (Z.of_nat (List.length (App.history st ++ [attempt])))
                  (App.attempts st)) as [Hfull|Hfull]];
    (eexists; split; [reflexivity|]);
    unfold App.status_of, App.cracked; simpl;
    rewrite ?at_last_snoc, ?Hgo; subst attempt; simpl;
    rewrite ?Hwin; try reflexivity.
  - destruct (Z.eqb_spec
                (Z.of_nat
                   (List.length
                      (App.history st
                       ++ [{| App.guess := App.current st; App.feedback := fb |}])))
                (App.attempts st)); [reflexivity|lia].
  - destruct (Z.eqb_spec
                (Z.of_nat
                   (List.length
                      (App.history st
                       ++ [{| App.guess := App.current st; App.feedback := fb |}])))
                (App.attempts st)); [lia|reflexivity].
Qed.

(** C6, as first stated, asks that a submit after the end of the game, or
    of a row with an unset slot, fail with InvalidInput.  The code returns
    without an error: once after a won game, once on the row of the first
    render, whose slots are all unset. *)
Lemma submit_refused_without_error :
  (exists st g',
      App.session insertion_sort
        [App.ClickPalette 0; App.ClickPalette 0; App.ClickPalette 0;
         App.ClickPalette 0; App.ClickGuess] zeros = Normal (st, g')
      /\ App.status_of st = App.Won
      /\ App.submit st = Normal st
      /\ App.submit st <> Throw InvalidInput)
  /\ (exists st g',
         App.session insertion_sort [] zeros = Normal (st, g')
         /\ In Null (App.current st)
         /\ App.submit st = Normal st
         /\ App.submit st <> Throw InvalidInput).
Proof.
  split; eexists _, _.
  - split; [vm_compute; reflexivity|].
    split; [reflexivity|]. split; [reflexivity|discriminate].
  - split; [vm_compute; reflexivity|].
    split; [left; reflexivity|]. split; [reflexivity|discriminate].
Qed.

Lemma forallb_truthy_null row : In Null row -> forallb truthy row = false.
Proof.
  intros H. destruct (forallb truthy row) eqn:E; [|reflexivity].
  rewrite forallb_forall in E. specialize (E Null H). discriminate.
Qed.

(** C6, amended.  A submit after the game has ended (won or lost), or of a
    row with an unset slot, returns without raising an error and leaves the
    state as it was: nothing is appended to the history; secret and status
    are untouched.  The same holds for the click on the Guess button. *)
Theorem submit_refused st :
  App.status_of st = App.Won \/ App.status_of st = App.Lost
  \/ In Null (App.current st) ->
  App.submit st = Normal st
  /\ forall array_sort g,
       App.step array_sort st App.ClickGuess g = Normal (st, g).
Proof.
  intros H.
  assert (Hcan : App.canSubmit st = false).
  { unfold App.canSubmit. unfold App.status_of in H.
    destruct H as [H|[H|H]].
    - destruct (App.gameOver st); [apply andb_false_r|discriminate].
    - destruct (App.gameOver st); [apply andb_false_r|discriminate].
    - rewrite (forallb_truthy_null _ H). reflexivity. }
  split.
  - unfold App.submit. rewrite Hcan. reflexivity.
  - intros array_sort g. unfold App.step. rewrite Hcan. reflexivity.
Qed.

Lemma submit_refused_witness :
  App.submit (App.setGameOver true demo_state)
  = Normal (App.setGameOver true demo_state)
  /\ forall array_sort g,
       App.step array_sort (App.setGameOver true demo_state) App.ClickGuess g
       = Normal (App.setGameOver true demo_state, g).
Proof.
  apply (submit_refused (App.setGameOver true demo_state)).
  right. left. reflexivity.
Defined.

(** ** Secret length and configured length *)

Section SessionFacts.

Variable array_sort : (value -> value -> M Z) -> list value -> M (list value).

(** The first render draws a secret of the configured length, 4. *)
Lemma init_secret_length :
  returns (App.init array_sort)
    (fun st => Z.of_nat (List.length (App.secret st)) = App.length st
               /\ App.length st = 4).
Proof.
  unfold App.init.
  eapply returns_bind; [apply randomCode_with_replacement|].
  intros code (Hlen & _). apply returns_ret. simpl. lia.
Qed.

(** A new game draws a secret of the length configured at that moment. *)
Lemma resetGame_secret_length st :
  sort_permutes array_sort ->
  0 <= App.length st ->
  returns (App.resetGame array_sort st)
    (fun st' => Z.of_nat (List.length (App.secret st')) = App.length st'
                /\ App.length st' = App.length st).
Proof.
  intros Hsort H0. unfold App.resetGame.
  eapply returns_bind; [apply (randomCode_length array_sort Hsort); exact H0|].
  intros code Hlen. apply returns_ret. simpl. split; [assumption|reflexivity].
Qed.

(** C7.  The code at the input that breaks the claim: after the first
    render the length setting is changed to 5.  No new secret is drawn;
    the secret keeps its 4 slots while the configured length is 5. *)
Theorem changeLength_keeps_secret g :
  exists st g',
    App.session array_sort [App.ChangeLength 5] g = Normal (st, g')
    /\ App.length st = 5
    /\ Z.of_nat (List.length (App.secret st)) = 4
    /\ Z.of_nat (List.length (App.secret st)) <> App.length st.
Proof.
  destruct (init_secret_length g) as (st0 & g' & E & Hlen & H4).
  exists (App.changeLength 5 st0), g'.
  unfold App.session, bind. rewrite E. simpl.
  unfold ret. split; [reflexivity|]. lia.
Qed.

(** C10.  The reveal button, clicked any number of times, changes neither
    the secret nor the history nor the status, and draws no random number;
    whenever the reveal area is on, the code it renders is the secret of
    the state the clicks started from. *)
Theorem reveal_read_only st n g :
  exists st',
    App.run array_sort st (repeat App.ClickReveal n) g = Normal (st', g)
    /\ App.secret st' = App.secret st
    /\ App.history st' = App.history st
    /\ App.status_of st' = App.status_of st
    /\ App.shown_secret st'
       = if App.reveal st' then Some (App.secret st) else None.
Proof.
  revert st. induction n as [|n IH]; intros st; simpl.
  - exists st. unfold ret. repeat split; reflexivity.
  - destruct (IH (App.toggleReveal st)) as (st' & E & Hs & Hh & Hst & Hshow).
    exists st'. unfold bind, ret. simpl. fold (@ret App.State st').
    split; [exact E|].
    repeat split; assumption.
Qed.

End SessionFacts.

(** ** What every session keeps true of the guess row *)

Lemma bind_normal {A B : Type} (c : M A) (k : A -> M B) g b g' :
  bind c k g = Normal (b, g') ->
  exists a g1, c g = Normal (a, g1) /\ k a g1 = Normal (b, g').
Proof.
  unfold bind. destruct (c g) as [[a g1]|e]; [|discriminate].
  intros H. exists a, g1. split; [reflexivity|assumption].
Qed.

Lemma ret_normal {A : Type} (a b : A) g g' :
  ret a g = Normal (b, g') -> b = a /\ g' = g.
Proof. unfold ret. intros H. inversion H. split; reflexivity. Qed.

Lemma array_set_nat_length a i v :
  List.length (App.array_set_nat a i v) = Nat.max (List.length a) (S i).
Proof.
  revert a. induction i as [|i IH]; intros [|x a]; simpl; try reflexivity.
  - lia.
  - rewrite IH. simpl. reflexivity.
  - rewrite IH. reflexivity.
Qed.

(** A write at an index of the array, or just past its end, skips no slot. *)
Lemma array_set_nat_defined a i v :
  (i <= List.length a)%nat -> v <> Undefined ->
  Forall (fun x => x <> Undefined) a ->
  Forall (fun x => x <> Undefined) (App.array_set_nat a i v).
Proof.
  intros Hi Hv. revert a Hi. induction i as [|i IH]; intros [|x a] Hi Ha; simpl.
  - constructor; [assumption|constructor].
  - inversion Ha; subst. constructor; assumption.
  - simpl in Hi. lia.
  - inversion Ha; subst. constructor; [assumption|].
    apply IH; [simpl in Hi; lia|assumption].
Qed.

Lemma empty_row_defined n :
  Forall (fun x => x <> Undefined) (App.empty_row n).
Proof.
  unfold App.empty_row. apply Forall_forall. intros x Hx.
  apply repeat_spec in Hx. subst. discriminate.
Qed.

Lemma empty_row_length n :
  0 <= n -> Z.of_nat (List.length (App.empty_row n)) = n.
Proof. intros H. unfold App.empty_row. rewrite repeat_length. lia. Qed.

Lemma handlePick_row_invariant s st :
  row_invariant st -> row_invariant (App.handlePick (Str s) st).
Proof.
  intros (Hl & Ha & Hc & Hd). unfold App.handlePick.
  destruct (App.gameOver st); [repeat split; tauto|].
  unfold row_invariant. simpl.
  assert (Hrem : 0 <= Z.rem (App.cursor st + 1) (App.length st)
                 <= App.cursor st + 1).
  { split; [apply Z.rem_nonneg; lia|apply Z.rem_le; lia]. }
  unfold App.array_set. destruct (Z.ltb_spec (App.cursor st) 0); [lia|].
  rewrite array_set_nat_length.
  repeat split; try lia.
  apply array_set_nat_defined; [lia|discriminate|assumption].
Qed.

Lemma submit_row_invariant st st' :
  row_invariant st -> App.submit st = Normal st' -> row_invariant st'.
Proof.
  intros (Hl & Ha & Hc & Hd). unfold App.submit.
  destruct (negb (App.canSubmit st)); [intros E; inversion E; subst; repeat split; tauto|].
  destruct (_ =? App.length st);
    [intros E; inversion E; subst; repeat split; simpl; tauto|].
  destruct (_ >=? App.attempts st);
    intros E; inversion E; subst; unfold row_invariant; simpl.
  - tauto.
  - rewrite empty_row_length by lia.
    repeat split; try lia. apply empty_row_defined.
Qed.

Section RowInvariant.

Variable array_sort : (value -> value -> M Z) -> list value -> M (list value).

Lemma init_row_invariant g st g' :
  App.init array_sort g = Normal (st, g') -> row_invariant st.
Proof.
  unfold App.init. intros H.
  apply bind_normal in H. destruct H as (code & g1 & _ & H).
  apply ret_normal in H. destruct H as [-> _].
  unfold row_invariant. simpl. repeat split; try lia.
  repeat constructor; discriminate.
Qed.

Lemma step_row_invariant st e g st' g' :
  row_invariant st ->
  App.step array_sort st e g = Normal (st', g') ->
  row_invariant st'.
Proof.
  intros Hinv. pose proof Hinv as (Hl & Ha & Hc & Hd).
  destruct e; simpl; intros H.
  - apply ret_normal in H. destruct H as [-> _].
    unfold row_invariant. simpl. repeat split; try lia; assumption.
  - apply ret_normal in H. destruct H as [-> _].
    unfold row_invariant. simpl. repeat split; try lia; assumption.
  - apply ret_normal in H. destruct H as [-> _]. exact Hinv.
  - unfold App.resetGame in H.
    apply bind_normal in H. destruct H as (code & g1 & _ & H).
    apply ret_normal in H. destruct H as [-> _].
    unfold row_invariant. simpl. rewrite empty_row_length by lia.
    repeat split; try lia. apply empty_row_defined.
  - apply ret_normal in H. destruct H as [-> _]. exact Hinv.
  - apply ret_normal in H. destruct H as [-> _]. exact Hinv.
  - destruct (nth_error (App.palette st) j) as [c|];
      apply ret_normal in H; destruct H as [-> _];
      [apply handlePick_row_invariant|]; assumption.
  - destruct (negb (App.gameOver st)); simpl in H;
      [destruct (Nat.ltb_spec i (List.length (App.current st)))|];
      apply ret_normal in H; destruct H as [-> _]; try assumption.
    unfold row_invariant. simpl. repeat split; try lia; assumption.
  - destruct (App.canSubmit st).
    + unfold App.lift in H. destruct (App.submit st) as [s1|] eqn:E;
        [|discriminate].
      inversion H; subst. eapply submit_row_invariant; eassumption.
    + apply ret_normal in H. destruct H as [-> _]. assumption.
  - apply ret_normal in H. destruct H as [-> _]. exact Hinv.
Qed.

Lemma run_row_invariant es : forall st g st' g',
  row_invariant st ->
  App.run array_sort st es g = Normal (st', g') ->
  row_invariant st'.
Proof.
  induction es as [|e es IH]; intros st g st' g' Hinv H; simpl in H.
  - apply ret_normal in H. destruct H as [-> _]. assumption.
  - apply bind_normal in H. destruct H as (s1 & g1 & Hstep & Hrun).
    eapply IH; [|eassumption].
    eapply step_row_invariant; eassumption.
Qed.

(** In every state a session reaches, the settings are within their
    bounds, the cursor is within the row or just past it, and the row
    holds no [undefined]. *)
Lemma session_row_invariant es g st g' :
  App.session array_sort es g = Normal (st, g') -> row_invariant st.
Proof.
  unfold App.session. intros H.
  apply bind_normal in H. destruct H as (s0 & g0 & Hinit & Hrun).
  eapply run_row_invariant; [|eassumption].
  eapply init_row_invariant; eassumption.
Qed.

End RowInvariant.

(** * Further facts *)

(** ** The scorer on arbitrary codes *)

Lemma skipn_index guess i :
  (i < List.length guess)%nat ->
  skipn i guess = index guess i :: skipn (S i) guess.
Proof.
  revert guess. induction i as [|i IH]; intros [|y t] H; simpl in H; try lia.
  - reflexivity.
  - simpl skipn at 1. rewrite IH by lia. reflexivity.
Qed.

Lemma agree_nil_r s : agree s [] = 0.
Proof. destruct s; reflexivity. Qed.

(** A secret without [undefined] never agrees with a read past the end of
    the guess: the reduction counts the positions the two codes share. *)
Lemma reduce_blacks_agree_defined s guess i acc :
  Forall (fun v => v <> Undefined) s ->
  reduce_blacks s guess i acc = acc + agree s (skipn i guess).
Proof.
  intros Hs. revert i acc. induction Hs as [|x s Hx Hs IH]; intros i acc.
  - simpl. lia.
  - simpl reduce_blacks. rewrite IH.
    destruct (Nat.lt_ge_cases i (List.length guess)) as [Hi|Hi].
    + rewrite (skipn_index guess i Hi). simpl agree. lia.
    + rewrite !skipn_all2 by lia.
      unfold index. rewrite nth_overflow by assumption.
      apply strict_eq_false in Hx. rewrite Hx, !agree_nil_r. lia.
Qed.

Lemma exact_spec_bounds secret guess :
  0 <= exact_spec secret guess <= Z.of_nat (List.length secret).
Proof.
  unfold exact_spec. split; [lia|].
  apply inj_le.
  etransitivity; [apply filter_length_le|]. rewrite length_seq. lia.
Qed.

Lemma overlap_spec_le_min secret guess :
  overlap_spec secret guess
  <= Z.of_nat (Nat.min (List.length secret) (List.length guess)).
Proof.
  pose proof (overlap_spec_le_length secret guess).
  pose proof (overlap_spec_le_length guess secret) as H'.
  rewrite (overlap_spec_sym guess secret) in H'. lia.
Qed.

(** X1.  On two codes of any lengths [scoreGuess] returns a feedback; nothing
    checks the lengths.  The blacks are the indices of the secret at which
    the guess reads the same value, a read past the end of the guess being
    [undefined]; the whites are the overlap minus the blacks, floored at
    0, and never more than the shorter code has slots.  When no slot of
    the secret holds [undefined] the floor is not reached, and blacks and
    whites together are at most the length of the shorter code. *)
Theorem scoreGuess_any_lengths secret guess :
  blacks (scoreGuess secret guess) = exact_spec secret guess
  /\ whites (scoreGuess secret guess)
     = Z.max 0 (overlap_spec secret guess - exact_spec secret guess)
  /\ 0 <= blacks (scoreGuess secret guess) <= Z.of_nat (List.length secret)
  /\ 0 <= whites (scoreGuess secret guess)
       <= Z.of_nat (Nat.min (List.length secret) (List.length guess))
  /\ (Forall (fun v => v <> Undefined) secret ->
      whites (scoreGuess secret guess)
      = overlap_spec secret guess - exact_spec secret guess
      /\ blacks (scoreGuess secret guess) + whites (scoreGuess secret guess)
         <= Z.of_nat (Nat.min (List.length secret) (List.length guess))).
Proof.
  unfold scoreGuess. simpl blacks. simpl whites.
  rewrite overlap_loop_spec, reduce_blacks_exact.
  pose proof (exact_spec_bounds secret guess) as Hb.
  pose proof (overlap_spec_le_min secret guess) as Ho.
  split; [reflexivity|]. split; [reflexivity|].
  split; [lia|]. split; [lia|].
  intros Hdef.
  pose proof (agree_le_overlap secret guess) as Ha.
  rewrite <- (reduce_blacks_exact secret guess) in *.
  rewrite (reduce_blacks_agree_defined secret guess 0 0 Hdef) in *.
  simpl skipn in *. lia.
Qed.

Lemma scoreGuess_any_lengths_witness :
  Forall (fun v => v <> Undefined) [red; blue; green]
  /\ whites (scoreGuess [red; blue; green] [blue; red])
     = overlap_spec [red; blue; green] [blue; red]
       - exact_spec [red; blue; green] [blue; red]
  /\ blacks (scoreGuess [red; blue; green] [blue; red])
     + whites (scoreGuess [red; blue; green] [blue; red])
     <= Z.of_nat (Nat.min (List.length [red; blue; green])
                          (List.length [blue; red])).
Proof.
  assert (H : Forall (fun v => v <> Undefined) [red; blue; green])
    by (repeat constructor; discriminate).
  split; [exact H|].
  exact (proj2 (proj2 (proj2 (proj2
           (scoreGuess_any_lengths [red; blue; green] [blue; red])))) H).
Defined.

(** The floor at 0 is reached when the secret holds [undefined] past the
    end of the guess. *)
Example scoreGuess_floor_reached :
  scoreGuess [Undefined] [] = {| blacks := 1; whites := 0 |}
  /\ overlap_spec [Undefined] [] - exact_spec [Undefined] [] = -1.
Proof. split; reflexivity. Qed.

(** ** No common colour, and rearranged codes *)

Lemma sumZ_zero_iff f l :
  (forall c, 0 <= f c) ->
  (sumZ f l = 0 <-> forall c, In c l -> f c = 0).
Proof.
  intros Hf. induction l as [|x l IH]; simpl.
  - split; [intros _ c []|reflexivity].
  - assert (0 <= sumZ f l).
    { clear IH. induction l as [|z l IHl]; simpl; [lia|].
      specialize (Hf z). lia. }
    pose proof (Hf x). split.
    + intros Hs c [<-|Hc]; [lia|]. apply IH; [lia|assumption].
    + intros Hall. rewrite (Hall x (or_introl eq_refl)).
      rewrite (proj2 IH); [reflexivity|].
      intros c Hc. apply Hall. right. assumption.
Qed.

Lemma overlap_zero_iff_disjoint secret guess :
  overlap_spec secret guess = 0
  <-> forall c, In c secret -> ~ In c guess.
Proof.
  unfold overlap_spec, colours.
  rewrite sumZ_zero_iff
    by (intros c; pose proof (count_nonneg secret c);
        pose proof (count_nonneg guess c); lia).
  split.
  - intros H c Hs Hg.
    specialize (H c). rewrite nodup_In, in_app_iff in H.
    specialize (H (or_introl Hs)).
    apply count_pos_in in Hs. apply count_pos_in in Hg.
    pose proof (count_nonneg secret c). pose proof (count_nonneg guess c). lia.
  - intros H c _.
    destruct (in_dec value_eq_dec c secret) as [Hs|Hs].
    + specialize (H c Hs).
      assert (count guess c = 0).
      { destruct (Z.eq_dec (count guess c) 0) as [E|E]; [exact E|].
        apply count_pos_in in E. contradiction. }
      pose proof (count_nonneg secret c). lia.
    + assert (count secret c = 0).
      { destruct (Z.eq_dec (count secret c) 0) as [E|E]; [exact E|].
        apply count_pos_in in E. contradiction. }
      pose proof (count_nonneg guess c). lia.
Qed.

(** X2.  For codes of equal length the feedback is (0, 0) exactly when no
    colour of the secret occurs in the guess. *)
Theorem scoreGuess_nothing_iff_disjoint secret guess :
  List.length secret = List.length guess ->
  (scoreGuess secret guess = {| blacks := 0; whites := 0 |}
   <-> forall c, In c secret -> ~ In c guess).
Proof.
  intros Hlen. rewrite <- overlap_zero_iff_disjoint.
  unfold scoreGuess.
  rewrite overlap_loop_spec, reduce_blacks_agree by assumption.
  pose proof (agree_nonneg secret guess).
  pose proof (agree_le_overlap secret guess).
  split.
  - intros E. inversion E as [[Hb Hw]]. lia.
  - intros E. f_equal; lia.
Qed.

Lemma scoreGuess_nothing_iff_disjoint_witness :
  List.length [red; red; red; red] = List.length [blue; blue; blue; blue]
  /\ (scoreGuess [red; red; red; red] [blue; blue; blue; blue]
      = {| blacks := 0; whites := 0 |}
      <-> forall c, In c [red; red; red; red] -> ~ In c [blue; blue; blue; blue]).
Proof.
  split; [reflexivity|].
  apply (scoreGuess_nothing_iff_disjoint
           [red; red; red; red] [blue; blue; blue; blue]).
  reflexivity.
Defined.

Lemma overlap_spec_perm s s' g g' :
  Permutation s s' -> Permutation g g' ->
  overlap_spec s g = overlap_spec s' g'.
Proof.
  intros Hs Hg. unfold overlap_spec, colours.
  rewrite (sumZ_ext_in _ (fun c => Z.min (count s' c) (count g' c))).
  - apply sumZ_support; try apply NoDup_nodup.
    intros c _. rewrite !nodup_In, !in_app_iff.
    split; (intros [H|H]; [left|right]);
      eauto using Permutation_in, Permutation_sym.
  - intros c _. unfold count.
    rewrite (Permutation_count_occ value_eq_dec s s') in Hs.
    rewrite (Permutation_count_occ value_eq_dec g g') in Hg.
    rewrite Hs, Hg. reflexivity.
Qed.

(** X3.  For codes of equal length the number of pins, blacks and whites
    together, depends only on which colours the two codes hold and how
    often: rearranging the secret or the guess leaves it unchanged. *)
Theorem scoreGuess_pins_rearranged secret secret' guess guess' :
  List.length secret = List.length guess ->
  Permutation secret secret' ->
  Permutation guess guess' ->
  blacks (scoreGuess secret guess) + whites (scoreGuess secret guess)
  = blacks (scoreGuess secret' guess') + whites (scoreGuess secret' guess').
Proof.
  intros Hlen Hs Hg.
  assert (Hlen' : List.length secret' = List.length guess').
  { rewrite <- (Permutation_length Hs), <- (Permutation_length Hg). exact Hlen. }
  unfold scoreGuess. simpl blacks. simpl whites.
  rewrite !overlap_loop_spec, !reduce_blacks_agree by assumption.
  rewrite (overlap_spec_perm secret secret' guess guess' Hs Hg).
  pose proof (agree_le_overlap secret guess) as H1.
  pose proof (agree_le_overlap secret' guess') as H2.
  rewrite (overlap_spec_perm secret secret' guess guess' Hs Hg) in H1.
  lia.
Qed.

Lemma scoreGuess_pins_rearranged_witness :
  List.length [red; red; blue; green] = List.length [red; blue; blue; yellow]
  /\ Permutation [red; red; blue; green] [red; blue; red; green]
  /\ Permutation [red; blue; blue; yellow] [blue; red; blue; yellow]
  /\ blacks (scoreGuess [red; red; blue; green] [red; blue; blue; yellow])
     + whites (scoreGuess [red; red; blue; green] [red; blue; blue; yellow])
     = blacks (scoreGuess [red; blue; red; green] [blue; red; blue; yellow])
       + whites (scoreGuess [red; blue; red; green] [blue; red; blue; yellow]).
Proof.
  assert (H1 : Permutation [red; red; blue; green] [red; blue; red; green])
    by apply perm_skip, perm_swap.
  assert (H2 : Permutation [red; blue; blue; yellow] [blue; red; blue; yellow])
    by apply perm_swap.
  split; [reflexivity|]. split; [exact H1|]. split; [exact H2|].
  apply (scoreGuess_pins_rearranged
           [red; red; blue; green] [red; blue; red; green]
           [red; blue; blue; yellow] [blue; red; blue; yellow]
           eq_refl H1 H2).
Defined.

(** ** The generator: draws, and lengths below zero *)

(** [Array.from] with a callback that takes one draw per call takes [n]
    draws in all. *)
Lemma array_from_draws n f (P : value -> Prop) :
  (forall g, exists v,
      f g = Normal (v, {| draws := draws g; pos := S (pos g) |}) /\ P v) ->
  forall g, exists l,
    array_from n f g
    = Normal (l, {| draws := draws g; pos := (pos g + n)%nat |})
    /\ List.length l = n /\ Forall P l.
Proof.
  intros Hf. induction n as [|n IH]; intros g; simpl.
  - exists []. unfold ret. rewrite Nat.add_0_r. destruct g.
    repeat split. constructor.
  - destruct (Hf g) as (v & Ev & Hv).
    destruct (IH {| draws := draws g; pos := S (pos g) |}) as (l & El & Hl & Hall).
    exists (v :: l). unfold bind. rewrite Ev, El. unfold ret. simpl.
    replace (pos g + S n)%nat with (S (pos g + n)) by lia.
    split; [reflexivity|]. split; [congruence|constructor; assumption].
Qed.

Lemma random_key_draw keys g :
  exists v,
    (i <- random_below (Z.of_nat (List.length keys)) ;;
     ret (index keys (Z.to_nat i))) g
    = Normal (v, {| draws := draws g; pos := S (pos g) |})
    /\ (keys <> [] -> In v keys).
Proof.
  eexists. split; [reflexivity|].
  intros Hne. apply nth_In.
  assert (0 <= draws g (pos g) mod 2 ^ 53 < 2 ^ 53)
    by (apply Z.mod_pos_bound; lia).
  destruct keys as [|x keys]; [congruence|].
  apply Nat2Z.inj_lt. rewrite Z2Nat.id by (apply Z.div_pos; nia).
  apply Z.div_lt_upper_bound; [lia|].
  simpl List.length. nia.
Qed.

(** X4.  With duplicates allowed [randomCode] takes exactly one draw per slot
    and never consults the sort: the code has [max(length, 0)] slots, each
    a key of the palette when the palette has any. *)
Theorem randomCode_duplicates_allowed array_sort keys length g :
  exists code,
    randomCode array_sort keys length true g
    = Normal (code,
              {| draws := draws g; pos := (pos g + Z.to_nat length)%nat |})
    /\ Z.of_nat (List.length code) = Z.max length 0
    /\ (keys <> [] -> incl code keys)
    /\ forall other_sort,
         randomCode other_sort keys length true
         = randomCode array_sort keys length true.
Proof.
  unfold randomCode.
  destruct (array_from_draws (Z.to_nat length) _ _ (random_key_draw keys) g)
    as (code & E & Hlen & Hall).
  exists code. split; [exact E|]. split; [lia|]. split; [|reflexivity].
  intros Hne c Hc. rewrite Forall_forall in Hall. apply (Hall c Hc Hne).
Qed.

Lemma randomCode_duplicates_allowed_witness :
  default_keys <> []
  /\ exists code,
      randomCode insertion_sort default_keys 4 true mixed
      = Normal (code, {| draws := draws mixed; pos := (pos mixed + 4)%nat |})
      /\ incl code default_keys.
Proof.
  split; [discriminate|].
  destruct (randomCode_duplicates_allowed insertion_sort default_keys 4 mixed)
    as (code & E & _ & Hincl & _).
  exists code. split; [exact E|]. apply Hincl. discriminate.
Defined.

Lemma slice0_length_negative a e :
  e < 0 ->
  Z.of_nat (List.length (slice0 a e))
  = Z.max (Z.of_nat (List.length a) + e) 0.
Proof.
  intros H. unfold slice0.
  destruct (Z.ltb_spec e 0); [|lia].
  rewrite length_firstn. lia.
Qed.

(** X5.  With duplicates disallowed a negative length is handed to [slice],
    which counts it from the end: the code that is returned has
    [|palette| + length] slots (none when that is negative), pairwise
    distinct keys of a palette of distinct keys.  With duplicates allowed
    a negative length gives the empty code. *)
Theorem randomCode_negative_length array_sort keys length g :
  sort_permutes array_sort ->
  length < 0 ->
  (exists code g',
      randomCode array_sort keys length false g = Normal (code, g')
      /\ Z.of_nat (List.length code)
         = Z.max (Z.of_nat (List.length keys) + length) 0
      /\ incl code keys
      /\ (NoDup keys -> NoDup code))
  /\ exists g', randomCode array_sort keys length true g = Normal ([], g').
Proof.
  intros Hsort Hneg. split.
  - destruct (randomCode_shuffled array_sort Hsort keys length
                ltac:(lia) g)
      as (code & g' & E & (sorted & Hperm & Hcode) & Hincl & Hnodup).
    exists code, g'. split; [exact E|]. split; [|split; assumption].
    subst code. rewrite slice0_length_negative by assumption.
    rewrite (Permutation_length Hperm). reflexivity.
  - destruct (randomCode_with_replacement array_sort keys length g)
      as (code & g' & E & Hlen & _).
    exists g'. rewrite E. f_equal. f_equal.
    apply length_zero_iff_nil. lia.
Qed.

Lemma randomCode_negative_length_witness :
  (exists code g',
      randomCode insertion_sort default_keys (-2) false mixed = Normal (code, g')
      /\ Z.of_nat (List.length code)
         = Z.max (Z.of_nat (List.length default_keys) + -2) 0
      /\ incl code default_keys
      /\ (NoDup default_keys -> NoDup code))
  /\ exists g',
      randomCode insertion_sort default_keys (-2) true mixed = Normal ([], g').
Proof.
  apply (randomCode_negative_length insertion_sort default_keys (-2) mixed
           insertion_sort_permutes).
  lia.
Defined.

Example randomCode_negative_run :
  exists g',
    randomCode insertion_sort default_keys (-2) false mixed
    = Normal ([blue; red; yellow; green], g').
Proof. eexists. reflexivity. Qed.

(** ** What one event can change *)

Ltac ret_inv H :=
  apply ret_normal in H; destruct H as [-> ->].

(** What a submit that went through did to the state. *)
Lemma submit_effect st st' :
  App.canSubmit st = true ->
  App.submit st = Normal st' ->
  App.history st'
  = App.history st
    ++ [{| App.guess := App.current st;
           App.feedback := scoreGuess (App.secret st) (App.current st) |}]
  /\ App.secret st' = App.secret st
  /\ App.palette st' = App.palette st
  /\ App.length st' = App.length st
  /\ App.attempts st' = App.attempts st
  /\ (App.gameOver st' = true
      \/ App.gameOver st' = false
         /\ Z.of_nat (List.length (App.history st')) < App.attempts st
         /\ App.current st' = App.empty_row (App.length st)
         /\ App.cursor st' = 0).
Proof.
  intros Hcan. pose proof (canSubmit_not_over st Hcan) as Hgo.
  rewrite (submit_accepted st Hcan). cbv zeta.
  cbn [App.history App.setHistory].
  remember (scoreGuess (App.secret st) (App.current st)) as fb eqn:Hfb.
  destruct (blacks fb =? App.length st);
    [|destruct (Z.geb_spec
                  (Z.of_nat
                     (List.length
                        (App.history st
                         ++ [{| App.guess := App.current st;
                                App.feedback := fb |}])))
                  (App.attempts st))];
    intros E; inversion E; subst st'; simpl;
    repeat (split; [reflexivity|]); try (left; reflexivity).
  right. rewrite Hgo. repeat split; try reflexivity. assumption.
Qed.

Section EventFacts.

Variable array_sort : (value -> value -> M Z) -> list value -> M (list value).


(** X7.  Once the game is over, no event but a new game touches the secret,
    the history, the guess row, the cursor or the random source, and the
    game stays over. *)
Theorem game_over_absorbing st e g st' g' :
  App.gameOver st = true ->
  e <> App.ClickNewGame ->
  App.step array_sort st e g = Normal (st', g') ->
  App.gameOver st' = true
  /\ App.secret st' = App.secret st
  /\ App.history st' = App.history st
  /\ App.current st' = App.current st
  /\ App.cursor st' = App.cursor st
  /\ g' = g.
Proof.
  intros Hover Hne. destruct e; simpl; intros H; try congruence;
    try (ret_inv H; simpl; repeat split; assumption).
  - destruct (nth_error (App.palette st) j) as [c|]; ret_inv H.
    + unfold App.handlePick. rewrite Hover. repeat split; assumption.
    + repeat split; assumption.
  - rewrite Hover in H. simpl in H. ret_inv H. repeat split; assumption.
  - unfold App.canSubmit in H. rewrite Hover, andb_false_r in H.
    ret_inv H. repeat split; assumption.
Qed.

End EventFacts.


Lemma game_over_absorbing_witness :
  exists st' g',
    App.step insertion_sort (App.setGameOver true demo_state)
      (App.ClickPalette 2) zeros = Normal (st', g')
    /\ App.gameOver st' = true
    /\ App.secret st' = App.secret (App.setGameOver true demo_state)
    /\ App.history st' = App.history (App.setGameOver true demo_state)
    /\ App.current st' = App.current (App.setGameOver true demo_state)
    /\ App.cursor st' = App.cursor (App.setGameOver true demo_state)
    /\ g' = zeros.
Proof.
  eexists _, _. split; [reflexivity|].
  apply (game_over_absorbing insertion_sort (App.setGameOver true demo_state)
           (App.ClickPalette 2) zeros);
    [reflexivity|discriminate|reflexivity].
Defined.

(** ** What every session keeps true *)

Lemma addCyanMagenta_palette_only st :
  App.palette (App.addCyanMagenta st)
  = App.palette st
    ++ (if existsb (String.eqb "c") (map App.k (App.palette st)) then []
        else [ {| App.k := "c"; App.label := "Cyan"; App.hex := "#06b6d4" |} ])
    ++ (if existsb (String.eqb "m") (map App.k (App.palette st)) then []
        else [ {| App.k := "m"; App.label := "Magenta";
                  App.hex := "#db2777" |} ]).
Proof.
  unfold App.addCyanMagenta.
  cbn [App.palette App.setPalette filter App.k].
  destruct (existsb (String.eqb "c") (map App.k (App.palette st)));
    destruct (existsb (String.eqb "m") (map App.k (App.palette st)));
    reflexivity.
Qed.

Section SessionInvariants.

Variable array_sort : (value -> value -> M Z) -> list value -> M (list value).

Lemma step_palette_invariant st e g st' g' :
  palette_invariant st ->
  App.step array_sort st e g = Normal (st', g') ->
  palette_invariant st'.
Proof.
  intros Hinv. destruct e; simpl; intros H;
    try (ret_inv H; exact Hinv).
  - unfold App.resetGame in H.
    apply bind_normal in H. destruct H as (code & g1 & _ & H).
    ret_inv H. exact Hinv.
  - ret_inv H. unfold palette_invariant.
    rewrite addCyanMagenta_palette_only.
    destruct Hinv as [-> | ->]; [right|right]; reflexivity.
  - ret_inv H. left. reflexivity.
  - destruct (nth_error (App.palette st) j) as [c|]; ret_inv H; [|exact Hinv].
    unfold App.handlePick. destruct (App.gameOver st); exact Hinv.
  - destruct (negb (App.gameOver st) && (i <? List.length (App.current st))%nat);
      ret_inv H; exact Hinv.
  - destruct (App.canSubmit st) eqn:Hcan; [|ret_inv H; exact Hinv].
    unfold App.lift in H.
    destruct (App.submit st) as [s1|] eqn:E; [|discriminate].
    inversion H; subst.
    destruct (submit_effect st st' Hcan E) as (_ & _ & Hp & _).
    unfold palette_invariant. rewrite Hp. exact Hinv.
Qed.

Lemma step_history_invariant st e g st' g' :
  row_invariant st ->
  history_invariant st ->
  App.step array_sort st e g = Normal (st', g') ->
  history_invariant st'.
Proof.
  intros (_ & Hatt & _) Hinv.
  destruct e; simpl; intros H; try (ret_inv H; exact Hinv).
  - unfold App.resetGame in H.
    apply bind_normal in H. destruct H as (code & g1 & _ & H).
    ret_inv H. unfold history_invariant. simpl.
    split; [constructor|]. split; [lia|]. split; [lia|discriminate].
  - destruct (nth_error (App.palette st) j) as [c|]; ret_inv H; [|exact Hinv].
    unfold App.handlePick. destruct (App.gameOver st); exact Hinv.
  - destruct (negb (App.gameOver st) && (i <? List.length (App.current st))%nat);
      ret_inv H; exact Hinv.
  - destruct (App.canSubmit st) eqn:Hcan; [|ret_inv H; exact Hinv].
    unfold App.lift in H.
    destruct (App.submit st) as [s1|] eqn:E; [|discriminate].
    inversion H; subst.
    destruct (submit_effect st st' Hcan E)
      as (Hh & Hs & _ & _ & _ & Hover).
    destruct Hinv as (Hall & Hle & Hlt & Hne).
    pose proof (canSubmit_not_over st Hcan) as Hgo.
    specialize (Hlt Hgo).
    assert (Hlen : Z.of_nat (List.length (App.history st'))
                   = Z.of_nat (List.length (App.history st)) + 1)
      by (rewrite Hh, length_app; simpl; lia).
    unfold history_invariant. rewrite Hs.
    split; [|split; [lia|split]].
    + rewrite Hh. apply Forall_app. split; [exact Hall|].
      constructor; [|constructor]. simpl. split; [reflexivity|].
      unfold App.canSubmit in Hcan. apply andb_true_iff in Hcan. tauto.
    + intros Hst'. destruct Hover as [Ho|(_ & Hb & _)]; [congruence|lia].
    + intros _. rewrite Hh. intros Habs.
      apply app_eq_nil in Habs. destruct Habs as [_ Habs]. discriminate.
Qed.

Lemma init_invariants g st g' :
  App.init array_sort g = Normal (st, g') ->
  history_invariant st /\ palette_invariant st.
Proof.
  unfold App.init. intros H.
  apply bind_normal in H. destruct H as (code & g1 & _ & H).
  ret_inv H. split.
  - unfold history_invariant. simpl.
    split; [constructor|]. split; [lia|]. split; [lia|discriminate].
  - left. reflexivity.
Qed.

Lemma run_invariants es : forall st g st' g',
  row_invariant st /\ history_invariant st /\ palette_invariant st ->
  App.run array_sort st es g = Normal (st', g') ->
  row_invariant st' /\ history_invariant st' /\ palette_invariant st'.
Proof.
  induction es as [|e es IH]; intros st g st' g' Hinv H; simpl in H.
  - ret_inv H. exact Hinv.
  - apply bind_normal in H. destruct H as (s1 & g1 & Hstep & Hrun).
    destruct Hinv as (Hr & Hh & Hp).
    eapply IH; [|eassumption].
    split; [|split].
    + eapply step_row_invariant; eassumption.
    + eapply step_history_invariant; eassumption.
    + eapply step_palette_invariant; eassumption.
Qed.

Lemma session_invariants es g st g' :
  App.session array_sort es g = Normal (st, g') ->
  row_invariant st /\ history_invariant st /\ palette_invariant st.
Proof.
  unfold App.session. intros H.
  apply bind_normal in H. destruct H as (s0 & g0 & Hinit & Hrun).
  eapply run_invariants; [|eassumption].
  destruct (init_invariants _ _ _ Hinit).
  split; [eapply init_row_invariant; eassumption|]. split; assumption.
Qed.

(** X8.  In every state a session reaches, the length setting is within 2..10
    and the attempt budget within 1..20, the cursor is an index of the
    guess row or the one just past its end, and no slot of the guess row
    holds [undefined]. *)
Theorem session_settings_and_row es g st g' :
  App.session array_sort es g = Normal (st, g') ->
  2 <= App.length st <= 10
  /\ 1 <= App.attempts st <= 20
  /\ 0 <= App.cursor st <= Z.of_nat (List.length (App.current st))
  /\ Forall (fun v => v <> Undefined) (App.current st).
Proof. intros H. exact (proj1 (session_invariants es g st g' H)). Qed.


End SessionInvariants.

Lemma session_settings_and_row_witness :
  exists st g',
    App.session insertion_sort
      [App.ChangeLength 7; App.ClickPalette 2; App.ClickNewGame;
       App.ClickPalette 1; App.ClickSlot 5; App.ChangeAttempts 30] mixed
    = Normal (st, g')
    /\ 2 <= App.length st <= 10
    /\ 1 <= App.attempts st <= 20
    /\ 0 <= App.cursor st <= Z.of_nat (List.length (App.current st))
    /\ Forall (fun v => v <> Undefined) (App.current st).
Proof.
  eexists _, _. split; [vm_compute; reflexivity|].
  eapply (session_settings_and_row insertion_sort
            [App.ChangeLength 7; App.ClickPalette 2; App.ClickNewGame;
             App.ClickPalette 1; App.ClickSlot 5; App.ChangeAttempts 30] mixed).
  vm_compute. reflexivity.
Defined.


(** ** A new game *)


Section NewGame.

Variable array_sort : (value -> value -> M Z) -> list value -> M (list value).
Hypothesis array_sort_permutes : sort_permutes array_sort.



End NewGame.


(** ** Filling the guess row *)

Lemma array_set_nat_app done x rest key :
  App.array_set_nat (done ++ x :: rest) (List.length done) key
  = done ++ key :: rest.
Proof.
  induction done as [|d done IH]; simpl; [reflexivity|].
  rewrite IH. reflexivity.
Qed.

Lemma pick_all_from ks : forall st done,
  ks <> [] ->
  App.gameOver st = false ->
  App.current st = done ++ repeat Null (List.length ks) ->
  App.cursor st = Z.of_nat (List.length done) ->
  App.length st = Z.of_nat (List.length done + List.length ks) ->
  App.current (pick_all ks st) = done ++ ks
  /\ App.cursor (pick_all ks st) = 0
  /\ App.gameOver (pick_all ks st) = false
  /\ App.secret (pick_all ks st) = App.secret st
  /\ App.history (pick_all ks st) = App.history st.
Proof.
  induction ks as [|key ks IH]; intros st done Hne Hgo Hcur Hcursor Hlen;
    [congruence|].
  unfold pick_all. simpl fold_left. fold (pick_all ks (App.handlePick key st)).
  assert (Hpick : App.handlePick key st
                  = App.setCursor
                      (Z.rem (Z.of_nat (List.length done) + 1) (App.length st))
                      (App.setCurrent (done ++ key :: repeat Null (List.length ks))
                         st)).
  { unfold App.handlePick. rewrite Hgo, Hcur, Hcursor.
    unfold App.array_set.
    destruct (Z.ltb_spec (Z.of_nat (List.length done)) 0); [lia|].
    rewrite Nat2Z.id. simpl repeat. rewrite array_set_nat_app. reflexivity. }
  rewrite Hpick. simpl List.length in Hlen.
  destruct ks as [|key' ks'].
  - unfold pick_all. simpl.
    replace (App.length st) with (Z.of_nat (List.length done) + 1)
      by (rewrite Hlen; simpl List.length; lia).
    rewrite Z.rem_same by lia. repeat split; try reflexivity. assumption.
  - remember (key' :: ks') as rest eqn:Hrest.
    assert (Hrest_len : (1 <= List.length rest)%nat)
      by (subst rest; simpl; lia).
    destruct (IH (App.setCursor
                    (Z.rem (Z.of_nat (List.length done) + 1) (App.length st))
                    (App.setCurrent (done ++ key :: repeat Null (List.length rest))
                       st))
                (done ++ [key]))
      as (H1 & H2 & H3 & H4 & H5).
    + subst rest. discriminate.
    + exact Hgo.
    + cbn [App.current App.setCursor App.setCurrent].
      rewrite <- app_assoc. reflexivity.
    + cbn [App.cursor App.setCursor App.setCurrent].
      rewrite Z.rem_small by lia.
      rewrite length_app. simpl List.length. lia.
    + cbn [App.length App.setCursor App.setCurrent].
      rewrite Hlen, length_app. simpl List.length. lia.
    + rewrite H1, <- app_assoc. repeat split; assumption.
Qed.

(** X11.  From an unset row with the cursor on its first slot, picking as many
    keys as the row has slots writes them into the row in the order
    picked and brings the cursor back to the first slot; the row can then
    be submitted exactly when every key picked is a non-empty string.
    Secret and history are not touched. *)
Theorem picks_fill_row st ks :
  ks <> [] ->
  App.gameOver st = false ->
  App.current st = App.empty_row (App.length st) ->
  App.cursor st = 0 ->
  App.length st = Z.of_nat (List.length ks) ->
  App.current (pick_all ks st) = ks
  /\ App.cursor (pick_all ks st) = 0
  /\ App.canSubmit (pick_all ks st) = forallb truthy ks
  /\ App.secret (pick_all ks st) = App.secret st
  /\ App.history (pick_all ks st) = App.history st.
Proof.
  intros Hne Hgo Hcur Hcursor Hlen.
  destruct (pick_all_from ks st [] Hne Hgo) as (H1 & H2 & H3 & H4 & H5).
  - rewrite Hcur, Hlen. unfold App.empty_row. rewrite Nat2Z.id. reflexivity.
  - exact Hcursor.
  - exact Hlen.
  - simpl in H1. repeat split; try assumption.
    unfold App.canSubmit. rewrite H1, H3. apply andb_true_r.
Qed.

Lemma picks_fill_row_witness :
  App.current
    (pick_all [red; blue; blue; yellow]
       (App.setCurrent (App.empty_row 4) demo_state))
  = [red; blue; blue; yellow]
  /\ App.cursor
       (pick_all [red; blue; blue; yellow]
          (App.setCurrent (App.empty_row 4) demo_state)) = 0
  /\ App.canSubmit
       (pick_all [red; blue; blue; yellow]
          (App.setCurrent (App.empty_row 4) demo_state))
     = forallb truthy [red; blue; blue; yellow]
  /\ App.secret
       (pick_all [red; blue; blue; yellow]
          (App.setCurrent (App.empty_row 4) demo_state))
     = App.secret (App.setCurrent (App.empty_row 4) demo_state)
  /\ App.history
       (pick_all [red; blue; blue; yellow]
          (App.setCurrent (App.empty_row 4) demo_state))
     = App.history (App.setCurrent (App.empty_row 4) demo_state).
Proof.
  apply (picks_fill_row (App.setCurrent (App.empty_row 4) demo_state)
           [red; blue; blue; yellow]);
    [discriminate|reflexivity|reflexivity|reflexivity|reflexivity].
Defined.

(** ** Winning *)

Lemma submit_won_iff st :
  App.canSubmit st = true ->
  exists st',
    App.submit st = Normal st'
    /\ (App.status_of st' = App.Won
        <-> blacks (scoreGuess (App.secret st) (App.current st)) = App.length st).
Proof.
  intros Hcan. pose proof (canSubmit_not_over st Hcan) as Hgo.
  rewrite (submit_accepted st Hcan).
  cbv zeta. cbn [App.history App.setHistory].
  remember (scoreGuess (App.secret st) (App.current st)) as fb eqn:Hfb.
  remember {| App.guess := App.current st; App.feedback := fb |} as attempt
    eqn:Hattempt.
  destruct (Z.eqb_spec (blacks fb) (App.length st)) as [Hwin|Hwin];
    [|destruct (Z.of_nat (List.length (App.history st ++ [attempt]))
                >=? App.attempts st)];
    (eexists; split; [reflexivity|]);
    unfold App.status_of, App.cracked; simpl;
    rewrite ?at_last_snoc, ?Hgo; subst attempt; simpl.
  - apply Z.eqb_eq in Hwin. rewrite Hwin. split; [intros _|reflexivity].
    apply Z.eqb_eq. assumption.
  - apply Z.eqb_neq in Hwin. rewrite Hwin. split; [discriminate|].
    apply Z.eqb_neq in Hwin. contradiction.
  - split; [discriminate|contradiction].
Qed.

(** X12.  While the secret has as many slots as the length setting says, a
    complete row of that many slots wins exactly when it is the secret. *)
Theorem submit_wins_iff_secret st :
  App.canSubmit st = true ->
  Z.of_nat (List.length (App.secret st)) = App.length st ->
  List.length (App.current st) = List.length (App.secret st) ->
  exists st',
    App.submit st = Normal st'
    /\ (App.status_of st' = App.Won <-> App.current st = App.secret st).
Proof.
  intros Hcan Hlen Hrow.
  destruct (submit_won_iff st Hcan) as (st' & E & Hiff).
  exists st'. split; [exact E|]. rewrite Hiff.
  unfold scoreGuess. simpl blacks.
  rewrite reduce_blacks_agree by congruence. rewrite <- Hlen. split.
  - intros H. symmetry. apply agree_full; [congruence|assumption].
  - intros ->. apply agree_refl.
Qed.

Lemma submit_wins_iff_secret_witness :
  exists st',
    App.submit demo_state = Normal st'
    /\ (App.status_of st' = App.Won
        <-> App.current demo_state = App.secret demo_state).
Proof.
  apply (submit_wins_iff_secret demo_state); reflexivity.
Defined.

(** X13.  While the length setting is above the number of slots of the secret,
    as after raising it in the middle of a game, no row wins: not the
    secret itself, nor any longer row. *)
Theorem raised_length_cannot_win st :
  App.canSubmit st = true ->
  Z.of_nat (List.length (App.secret st)) < App.length st ->
  exists st',
    App.submit st = Normal st' /\ App.status_of st' <> App.Won.
Proof.
  intros Hcan Hlt.
  destruct (submit_won_iff st Hcan) as (st' & E & Hiff).
  exists st'. split; [exact E|]. rewrite Hiff.
  unfold scoreGuess. simpl blacks. rewrite reduce_blacks_exact.
  pose proof (exact_spec_bounds (App.secret st) (App.current st)). lia.
Qed.

Lemma raised_length_cannot_win_witness :
  exists st',
    App.submit
      (App.setCurrent [red; red; blue; green]
         (App.changeLength 5 demo_state)) = Normal st'
    /\ App.status_of st' <> App.Won.
Proof.
  apply (raised_length_cannot_win
           (App.setCurrent [red; red; blue; green]
              (App.changeLength 5 demo_state)));
    [reflexivity|simpl; lia].
Defined.

(** ** The status of a finished game and the length setting *)

(** X14.  The status of a finished game is read off the length setting of the
    moment.  A won game shows as lost as soon as the length setting is
    changed to another value; a lost game shows as won when the length
    setting is changed to the number of blacks of its last attempt. *)
Theorem finished_status_follows_length st input :
  (App.status_of st = App.Won ->
   Z.min 10 (Z.max 2 input) <> App.length st ->
   App.status_of (App.changeLength input st) = App.Lost)
  /\ (forall a,
         App.status_of st = App.Lost ->
         App.at_last (App.history st) = Some a ->
         Z.min 10 (Z.max 2 input) = blacks (App.feedback a) ->
         App.status_of (App.changeLength input st) = App.Won).
Proof.
  unfold App.status_of, App.cracked, App.changeLength. simpl. split.
  - destruct (App.gameOver st); [|discriminate].
    destruct (App.at_last (App.history st)) as [a|]; [|reflexivity].
    destruct (Z.eqb_spec (blacks (App.feedback a)) (App.length st)) as [E|E];
      [|discriminate].
    intros _ Hne.
    destruct (Z.eqb_spec (blacks (App.feedback a)) (Z.min 10 (Z.max 2 input)));
      [lia|reflexivity].
  - intros a Hlost Hlast Hv. rewrite Hlast in *.
    destruct (App.gameOver st); [|discriminate].
    rewrite Hv, Z.eqb_refl. reflexivity.
Qed.

Lemma finished_status_follows_length_witness :
  (App.status_of
     (App.setGameOver true
        (App.setHistory
           [{| App.guess := [red; red; blue; green];
               App.feedback := {| blacks := 4; whites := 0 |} |}]
           demo_state)) = App.Won
   /\ App.status_of
        (App.changeLength 5
           (App.setGameOver true
              (App.setHistory
                 [{| App.guess := [red; red; blue; green];
                     App.feedback := {| blacks := 4; whites := 0 |} |}]
                 demo_state))) = App.Lost)
  /\ (App.status_of
        (App.setGameOver true
           (App.setHistory
              [{| App.guess := [red; blue; blue; yellow];
                  App.feedback := {| blacks := 2; whites := 0 |} |}]
              demo_state)) = App.Lost
      /\ App.status_of
           (App.changeLength 2
              (App.setGameOver true
                 (App.setHistory
                    [{| App.guess := [red; blue; blue; yellow];
                        App.feedback := {| blacks := 2; whites := 0 |} |}]
                    demo_state))) = App.Won).
Proof.
  split; (split; [reflexivity|]).
  - apply (proj1 (finished_status_follows_length
                    (App.setGameOver true
                       (App.setHistory
                          [{| App.guess := [red; red; blue; green];
                              App.feedback := {| blacks := 4; whites := 0 |} |}]
                          demo_state)) 5));
      [reflexivity|simpl; lia].
  - apply (proj2 (finished_status_follows_length
                    (App.setGameOver true
                       (App.setHistory
                          [{| App.guess := [red; blue; blue; yellow];
                              App.feedback := {| blacks := 2; whites := 0 |} |}]
                          demo_state)) 2)
             {| App.guess := [red; blue; blue; yellow];
                App.feedback := {| blacks := 2; whites := 0 |} |});
      reflexivity.
Defined.

(** ** The palette *)

Lemma existsb_eqb_in s l : existsb (String.eqb s) l = true <-> In s l.
Proof.
  rewrite existsb_exists. split.
  - intros (x & Hx & E). apply String.eqb_eq in E. subst. assumption.
  - intros H. exists s. split; [assumption|apply String.eqb_refl].
Qed.

Lemma existsb_eqb_not_in s l : existsb (String.eqb s) l = false <-> ~ In s l.
Proof.
  rewrite <- existsb_eqb_in. destruct (existsb (String.eqb s) l); split;
    congruence.
Qed.

Lemma addCyanMagenta_has_keys st :
  In "c"%string (map App.k (App.palette (App.addCyanMagenta st)))
  /\ In "m"%string (map App.k (App.palette (App.addCyanMagenta st))).
Proof.
  rewrite addCyanMagenta_palette_only.
  destruct (existsb (String.eqb "c") (map App.k (App.palette st))) eqn:Ec;
    destruct (existsb (String.eqb "m") (map App.k (App.palette st))) eqn:Em;
    try apply existsb_eqb_in in Ec; try apply existsb_eqb_in in Em;
    rewrite !map_app, !in_app_iff; simpl; split; auto 6.
Qed.

Lemma addCyanMagenta_settled st :
  In "c"%string (map App.k (App.palette st)) ->
  In "m"%string (map App.k (App.palette st)) ->
  App.addCyanMagenta st = App.setPalette (App.palette st) st.
Proof.
  intros Hc Hm. unfold App.addCyanMagenta.
  cbn [filter App.k].
  rewrite (proj2 (existsb_eqb_in "c" _) Hc), (proj2 (existsb_eqb_in "m" _) Hm).
  cbn [negb]. rewrite app_nil_r. reflexivity.
Qed.

Lemma addCyanMagenta_nodup st :
  NoDup (map App.k (App.palette st)) ->
  NoDup (map App.k (App.palette (App.addCyanMagenta st))).
Proof.
  intros Hnd. rewrite addCyanMagenta_palette_only.
  destruct (existsb (String.eqb "c") (map App.k (App.palette st))) eqn:Ec;
    destruct (existsb (String.eqb "m") (map App.k (App.palette st))) eqn:Em;
    try apply existsb_eqb_not_in in Ec; try apply existsb_eqb_not_in in Em;
    rewrite map_app; simpl app; simpl map.
  - rewrite app_nil_r. assumption.
  - apply NoDup_app; [assumption|constructor; [intros []|constructor]|].
    intros x Hx [<-|[]]. contradiction.
  - apply NoDup_app; [assumption|constructor; [intros []|constructor]|].
    intros x Hx [<-|[]]. contradiction.
  - apply NoDup_app; [assumption| |].
    + constructor; [simpl; intuition discriminate|].
      constructor; [intros []|constructor].
    + intros x Hx [<-|[<-|[]]]; contradiction.
Qed.

(** X15.  Adding cyan and magenta keeps the palette on show as it is and appends
    what is missing: afterwards both keys are in the palette, a palette of
    distinct keys still has distinct keys, and adding once more changes
    nothing. *)
Theorem addCyanMagenta_once st :
  (exists extra,
      App.palette (App.addCyanMagenta st) = App.palette st ++ extra)
  /\ In "c"%string (map App.k (App.palette (App.addCyanMagenta st)))
  /\ In "m"%string (map App.k (App.palette (App.addCyanMagenta st)))
  /\ (NoDup (map App.k (App.palette st)) ->
      NoDup (map App.k (App.palette (App.addCyanMagenta st))))
  /\ App.addCyanMagenta (App.addCyanMagenta st) = App.addCyanMagenta st.
Proof.
  destruct (addCyanMagenta_has_keys st) as [Hc Hm].
  split; [eexists; apply addCyanMagenta_palette_only|].
  split; [exact Hc|]. split; [exact Hm|].
  split; [apply addCyanMagenta_nodup|].
  rewrite (addCyanMagenta_settled (App.addCyanMagenta st) Hc Hm).
  reflexivity.
Qed.

Lemma addCyanMagenta_once_witness :
  NoDup (map App.k (App.palette demo_state))
  /\ NoDup (map App.k (App.palette (App.addCyanMagenta demo_state))).
Proof.
  assert (H : NoDup (map App.k (App.palette demo_state)))
    by (simpl; nodup_concrete).
  split; [exact H|].
  exact (proj1 (proj2 (proj2 (proj2 (addCyanMagenta_once demo_state)))) H).
Defined.

(** ** The colour of a peg *)

Lemma find_key_missing palette key :
  (forall p, In p palette -> Str (App.k p) <> key) ->
  find (fun p => strict_eq (Str (App.k p)) key) palette = None.
Proof.
  induction palette as [|q palette IH]; intros H; cbn [find]; [reflexivity|].
  case_strict (Str (App.k q)) key.
  - exfalso. apply (H q); [left; reflexivity|reflexivity].
  - apply IH. intros p Hp. apply H. right. assumption.
Qed.

Lemma find_key_present palette p :
  NoDup (map App.k palette) -> In p palette ->
  find (fun q => strict_eq (Str (App.k q)) (Str (App.k p))) palette = Some p.
Proof.
  induction palette as [|q palette IH]; intros Hnd Hin; cbn [find];
    [contradiction|].
  simpl in Hnd. inversion Hnd as [|? ? Hq Hrest]; subst.
  destruct Hin as [->|Hin].
  - rewrite strict_eq_refl. reflexivity.
  - case_strict (Str (App.k q)) (Str (App.k p)).
    + exfalso. apply Hq. inversion E as [Hk]. rewrite Hk.
      apply in_map. assumption.
    + apply IH; assumption.
Qed.

(** X16.  A peg whose key is not in the palette on show, such as a key left in
    the secret or in the history after the palette went back to the
    default, is drawn in the fallback colour.  A peg whose key
    belongs to an entry of a palette of distinct keys is drawn in the colour
    of that entry, provided the entry has one. *)
Theorem peg_hex_lookup palette :
  (forall key,
      (forall p, In p palette -> Str (App.k p) <> key) ->
      peg_hex palette key = "#ddd"%string)
  /\ (forall p,
         NoDup (map App.k palette) ->
         In p palette ->
         App.hex p <> EmptyString ->
         peg_hex palette (Str (App.k p)) = App.hex p).
Proof.
  split.
  - intros key H. unfold peg_hex. rewrite find_key_missing by assumption.
    reflexivity.
  - intros p Hnd Hin Hhex. unfold peg_hex.
    rewrite find_key_present by assumption.
    destruct (String.eqb_spec (App.hex p) EmptyString); [contradiction|].
    reflexivity.
Qed.

Lemma peg_hex_lookup_witness :
  peg_hex App.defaultPalette (Str "c") = "#ddd"%string
  /\ peg_hex extendedPalette (Str "c") = "#06b6d4"%string.
Proof.
  split.
  - apply (proj1 (peg_hex_lookup App.defaultPalette) (Str "c")).
    simpl. intros p H.
    repeat (destruct H as [<-|H]; [discriminate|]). contradiction.
  - apply (proj2 (peg_hex_lookup extendedPalette)
             {| App.k := "c"; App.label := "Cyan"; App.hex := "#06b6d4" |}).
    + simpl. nodup_concrete.
    + simpl. tauto.
    + discriminate.
Defined.
